(** * RAG_Bot backend: service factory, rate limiter, batched embeddings

    A shallow embedding of the stateful core of the backend
    ([app/services/factory.py], [app/core/security.py],
    [app/services/embeddings/openai_embeddings.py], and the readiness
    endpoint of [app/main.py]) together with the properties its
    specification states about it, followed by further properties of the
    same code and of what surrounds it: failure and bypass paths of the
    factory, the rate limit middleware and API key check, input
    sanitising and upload validation, text truncation, and the merge of
    YAML overrides into the settings ([app/core/config.py]).

    Python objects are modelled by what the code observes of them:
    - a [dict] whose iteration order is observed is an insertion-ordered
      association list ([PyDict]); the singleton cache, which is only ever
      indexed, is a [gmap];
    - an exception is a value of [exn]; a call that may raise returns a
      [result];
    - class-level mutable state is threaded explicitly. *)

From Stdlib Require Import ZArith Ascii String List Lia.
From stdpp Require Import base decidable option list gmap strings.

Local Open Scope string_scope.
Local Open Scope Z_scope.
Local Open Scope list_scope.

(** ** Python values, exceptions and results *)

Module Py.

(** The pieces of an f-string: literal text and interpolated values. *)
Inductive fpart : Type :=
| Lit (s : string)
| FStr (s : string)
| FList (l : list string).

Inductive exn : Type :=
| ValueError (msg : list fpart)
| TypeError (msg : string)
| ZeroDivisionError
| KeyError (key : string)
| OverflowError (msg : string)
| ProviderError (what : string).

Inductive result (A : Type) : Type :=
| Ok (a : A)
| Raise (e : exn).
Arguments Ok {A} a.
Arguments Raise {A} e.

Definition is_ok {A} (r : result A) : bool :=
  match r with Ok _ => true | Raise _ => false end.

(** [x or default] on an optional string: [None] and the empty string are
    falsy. *)
Definition str_or (x : option string) (default : string) : string :=
  match x with
  | Some s => if String.eqb s "" then default else s
  | None => default
  end.

(** Truthiness of an optional string, as tested by [if x:]. *)
Definition truthy (x : option string) : bool :=
  match x with
  | Some s => negb (String.eqb s "")
  | None => false
  end.

(** The two kinds of values the rate limiter compares with [<]. *)
Inductive value : Type :=
| VInt (n : Z)
| VTuple (client : string) (minute : Z).

(** Python 3 rich comparison [a < b]: defined between two integers and
    between two tuples (lexicographically); between a tuple and an integer
    neither operand implements it and the interpreter raises. *)
Definition lt (a b : value) : result bool :=
  match a, b with
  | VInt x, VInt y => Ok (x <? y)
  | VTuple c1 m1, VTuple c2 m2 =>
      Ok (match String.compare c1 c2 with
          | Lt => true
          | Eq => m1 <? m2
          | Gt => false
          end)
  | VTuple _ _, VInt _ =>
      Raise (TypeError "'<' not supported between instances of 'tuple' and 'int'")
  | VInt _, VTuple _ _ =>
      Raise (TypeError "'<' not supported between instances of 'int' and 'tuple'")
  end.

End Py.
Import Py.

(** ** Insertion-ordered dictionaries *)

Module PyDict.
Section Dict.
Context {K V : Type} `{EqDecision K}.

(** [d.get(k)] / [k in d] / [d[k]] *)
Fixpoint dict_get (k : K) (d : list (K * V)) : option V :=
  match d with
  | [] => None
  | (k', v) :: d' => if decide (k = k') then Some v else dict_get k d'
  end.

Definition dict_mem (k : K) (d : list (K * V)) : bool :=
  match dict_get k d with Some _ => true | None => false end.

(** [d[k] = v]: an existing key keeps its position, a new key goes last. *)
Fixpoint dict_set (k : K) (v : V) (d : list (K * V)) : list (K * V) :=
  match d with
  | [] => [(k, v)]
  | (k', v') :: d' =>
      if decide (k = k') then (k, v) :: d' else (k', v') :: dict_set k v d'
  end.

(** [del d[k]] for a key that is present. *)
Fixpoint dict_del (k : K) (d : list (K * V)) : list (K * V) :=
  match d with
  | [] => []
  | (k', v') :: d' =>
      if decide (k = k') then d' else (k', v') :: dict_del k d'
  end.

(** [list(d.keys())] and [d.values()] *)
Definition dict_keys (d : list (K * V)) : list K := map fst d.
Definition dict_values (d : list (K * V)) : list V := map snd d.
End Dict.
End PyDict.
Import PyDict.

(** ** The rate limiter ([app/core/security.py]) *)

Module RateLimiter.

(** [self.requests_per_minute] and [self.requests]; the only keys ever
    stored are the pairs [(client_id, minute)] written by [is_allowed]. *)
Record t : Type := mk {
  requests_per_minute : Z;
  requests : list ((string * Z) * Z)
}.

(** [RateLimiter(requests_per_minute)] *)
Definition init (rpm : Z) : t :=
  {| requests_per_minute := rpm; requests := [] |}.

(** [[m for m in self.requests.keys() if m < minute - 1]]: every key [m]
    is a tuple and is compared with an integer. *)
Fixpoint old_minutes (keys : list (string * Z)) (minute : Z)
  : result (list (string * Z)) :=
  match keys with
  | [] => Ok []
  | m :: keys' =>
      match lt (VTuple (fst m) (snd m)) (VInt (minute - 1)) with
      | Raise e => Raise e
      | Ok b =>
          match old_minutes keys' minute with
          | Raise e => Raise e
          | Ok rest => Ok (if b then m :: rest else rest)
          end
      end
  end.

(** [for old_minute in old_minutes: del self.requests[old_minute]] *)
Definition prune (olds : list (string * Z)) (reqs : list ((string * Z) * Z))
  : list ((string * Z) * Z) :=
  fold_left (fun d k => dict_del k d) olds reqs.

(** [is_allowed(client_id)] with the clock reading [now] in whole seconds
    ([int(now // 60)] only depends on the integral part of [time.time()]).
    Returns the outcome and the limiter afterwards. *)
Definition is_allowed (self : t) (client_id : string) (now : Z)
  : result bool * t :=
  let minute := now / 60 in
  match old_minutes (dict_keys (requests self)) minute with
  | Raise e => (Raise e, self)
  | Ok olds =>
      let reqs := prune olds (requests self) in
      let key := (client_id, minute) in
      let current_requests := default 0 (dict_get key reqs) in
      if requests_per_minute self <=? current_requests
      then (Ok false,
            {| requests_per_minute := requests_per_minute self;
               requests := reqs |})
      else (Ok true,
            {| requests_per_minute := requests_per_minute self;
               requests := dict_set key (current_requests + 1) reqs |})
  end.

(** A request as far as [get_client_id] reads it: the peer, if any, and
    the headers (looked up by the spelling the source uses). *)
Record Request : Type := mkRequest {
  client_host : option string;
  headers : list (string * string)
}.

(** Whitespace as [str.strip()] and [str.split()] see it.  A character is
    a code point below 256, which is all a header value holds (it is
    decoded as latin-1): tab to carriage return, the four separators
    U+001C to U+001F, the space, U+0085 (next line) and U+00A0 (no-break
    space). *)
Definition is_space (c : ascii) : bool :=
  let n := nat_of_ascii c in
  ((9 <=? n)%nat && (n <=? 13)%nat) || ((28 <=? n)%nat && (n <=? 32)%nat)
  || (n =? 133)%nat || (n =? 160)%nat.

Fixpoint lstrip (s : string) : string :=
  match s with
  | String c s' => if is_space c then lstrip s' else s
  | EmptyString => EmptyString
  end.

Fixpoint rstrip (s : string) : string :=
  match s with
  | String c s' =>
      match rstrip s' with
      | EmptyString => if is_space c then EmptyString else String c EmptyString
      | r => String c r
      end
  | EmptyString => EmptyString
  end.

Definition strip (s : string) : string := rstrip (lstrip s).

(** [s.split(",")[0]]: the text before the first comma. *)
Fixpoint split_comma_first (s : string) : string :=
  match s with
  | String c s' =>
      if Ascii.eqb c ","%char then EmptyString
      else String c (split_comma_first s')
  | EmptyString => EmptyString
  end.

(** [get_client_id(request)] *)
Definition get_client_id (request : Request) : string :=
  let client_ip :=
    match client_host request with Some h => h | None => "unknown" end in
  let forwarded_for := dict_get "X-Forwarded-For" (headers request) in
  let client_ip :=
    if truthy forwarded_for
    then strip (split_comma_first (default "" forwarded_for))
    else client_ip in
  let real_ip := dict_get "X-Real-IP" (headers request) in
  let client_ip :=
    if truthy real_ip then default "" real_ip else client_ip in
  client_ip.

(** The error Python raises when a tuple is compared with an integer. *)
Definition tuple_int_error : exn :=
  TypeError "'<' not supported between instances of 'tuple' and 'int'".

End RateLimiter.

(** ** Batched embeddings ([app/services/embeddings/openai_embeddings.py]) *)

Module Embeddings.

(** [range(start, stop, step)] *)
Definition py_range (start stop step : Z) : result (list Z) :=
  if step =? 0 then
    Raise (ValueError [Lit "range() arg 3 must not be zero"])
  else
    let count :=
      if 0 <? step then (stop - start + step - 1) / step
      else (start - stop - step - 1) / (- step) in
    Ok (map (fun k => start + Z.of_nat k * step) (seq 0 (Z.to_nat count))).

(** A slice bound brought into [0, len]: a negative bound counts from the
    end. *)
Definition clamp (len i : Z) : Z :=
  if i <? 0 then Z.max (i + len) 0 else Z.min i len.

(** [l[lo:hi]] *)
Definition py_slice {A} (l : list A) (lo hi : Z) : list A :=
  let len := Z.of_nat (length l) in
  let lo' := clamp len lo in
  let hi' := clamp len hi in
  take (Z.to_nat (hi' - lo')) (drop (Z.to_nat lo') l).

(** The least magnitude that no float is nearest to: halfway between the
    largest float, 2^1024 - 2^971, and 2^1024. *)
Definition float_overflow : Z := 2 ^ 1024 - 2 ^ 970.

(** [a / b] on integers, as far as it can fail: true division gives the
    float nearest to the quotient, and raises when the divisor is zero or
    when that float would be out of range. *)
Definition true_div_check (a b : Z) : result unit :=
  if b =? 0 then Raise ZeroDivisionError
  else if float_overflow * Z.abs b <=? Z.abs a
  then Raise (OverflowError "integer division result too large for a float")
  else Ok tt.

(** [self.token_pricing], in hundred-thousandths of a dollar per 1K
    tokens. *)
Definition token_pricing : list (string * Z) :=
  [("text-embedding-ada-002", 10);
   ("text-embedding-3-small", 2);
   ("text-embedding-3-large", 13)].

(** [_calculate_cost(model, usage)].  No caller reads the cost (a float,
    or [None] for a model without a price); what is kept of it is whether
    computing it raises.  The product of two floats never does; the
    division of [total_tokens] by 1000 does when the quotient is out of
    the range of a float. *)
Definition _calculate_cost (mdl : string) (u : list (string * Z))
  : result unit :=
  if negb (dict_mem mdl token_pricing) then Ok tt
  else
    let total_tokens := default 0 (dict_get "total_tokens" u) in
    true_div_check total_tokens 1000.
Arguments _calculate_cost : simpl never.

(** Usage counters in the range of a 64-bit integer, as token counts
    are. *)
Definition usage_bounded (u : list (string * Z)) : Prop :=
  ∀ k v, dict_get k u = Some v → Z.abs v < 2 ^ 63.

Section Service.
(** [Emb] is an embedding vector ([List[float]], never inspected here);
    [World] is whatever the upstream API depends on and changes. *)
Context {Emb World : Type}.

Record EmbeddingResponse : Type := mkResponse {
  embedding : Emb;
  model : string;
  usage : list (string * Z)
}.

(** What [client.embeddings.create] answers: [response.data] (one
    embedding per item) and [response.usage], if any. *)
Record ApiResponse : Type := mkApi {
  data : list Emb;
  api_usage : option (list (string * Z))
}.

(** Observable effects, oldest first: an upstream request with its
    outcome, and the pacing delay [asyncio.sleep(0.1)]. *)
Inductive event : Type :=
| ECreate (model : string) (input : list string) (succeeded : bool)
| ESleep.

(** [self.client.embeddings.create(model=model, input=texts)] *)
Variable create : string → list string → World → result ApiResponse * World.
(** [self.default_model] *)
Variable default_model : string.

Definition St : Type := World * list event.
Definition M (A : Type) : Type := St → result A * St.

Definition ret {A} (a : A) : M A := fun st => (Ok a, st).
Definition bind {A B} (m : M A) (k : A → M B) : M B :=
  fun st =>
    match m st with
    | (Ok a, st') => k a st'
    | (Raise e, st') => (Raise e, st')
    end.
Definition emit (ev : event) : M unit :=
  fun st => (Ok tt, (fst st, snd st ++ [ev])).

(** [usage.get(key, 0) // len(texts)] *)
Definition usage_share (u : list (string * Z)) (key : string) (n : Z)
  : result Z :=
  if n =? 0 then Raise ZeroDivisionError
  else Ok (default 0 (dict_get key u) / n).

(** The loop of [_embed_batch] over [response.data]. *)
Fixpoint build_responses (ds : list Emb) (mdl : string)
    (u : list (string * Z)) (n : Z) : result (list EmbeddingResponse) :=
  match ds with
  | [] => Ok []
  | d :: ds' =>
      match usage_share u "total_tokens" n,
            usage_share u "prompt_tokens" n with
      | Ok t, Ok p =>
          match build_responses ds' mdl u n with
          | Ok rs =>
              Ok ({| embedding := d; model := mdl;
                     usage := [("total_tokens", t); ("prompt_tokens", p)] |}
                  :: rs)
          | Raise e => Raise e
          end
      | Raise e, _ => Raise e
      | _, Raise e => Raise e
      end
  end.

(** [_embed_batch(texts, model)]: one upstream request, then the cost of
    the answer, then one response per item of the answer; any exception,
    of the request or of what follows it, is logged and re-raised.  The
    log lines themselves are left out: rendering them cannot fail for
    usage counters that are [usage_bounded] (an interpreter that limits
    the digits of a printed integer allows at least 640 of them). *)
Definition _embed_batch (texts : list string) (mdl : string)
  : M (list EmbeddingResponse) :=
  fun st =>
    match create mdl texts (fst st) with
    | (Raise e, w') => (Raise e, (w', snd st ++ [ECreate mdl texts false]))
    | (Ok response, w') =>
        let st' := (w', snd st ++ [ECreate mdl texts true]) in
        let u := default [] (api_usage response) in
        match _calculate_cost mdl u with
        | Raise e => (Raise e, st')
        | Ok _ =>
            (build_responses (data response) mdl u
               (Z.of_nat (length texts)), st')
        end
    end.

(** The body of [for i in range(0, len(texts), batch_size)]. *)
Fixpoint embed_loop (idxs : list Z) (texts : list string) (mdl : string)
    (batch_size : Z) (all_responses : list EmbeddingResponse)
  : M (list EmbeddingResponse) :=
  match idxs with
  | [] => ret all_responses
  | i :: idxs' =>
      let batch := py_slice texts i (i + batch_size) in
      bind (_embed_batch batch mdl) (fun batch_responses =>
      let all_responses := all_responses ++ batch_responses in
      bind (if i + batch_size <? Z.of_nat (length texts)
            then emit ESleep else ret tt) (fun _ =>
      embed_loop idxs' texts mdl batch_size all_responses))
  end.

(** [embed_texts(texts, model, batch_size)] *)
Definition embed_texts (texts : list string) (mdl : option string)
    (batch_size : Z) : M (list EmbeddingResponse) :=
  let mdl := str_or mdl default_model in
  match texts with
  | [] => ret []
  | _ =>
      match py_range 0 (Z.of_nat (length texts)) batch_size with
      | Raise e => fun st => (Raise e, st)
      | Ok idxs => embed_loop idxs texts mdl batch_size []
      end
  end.

(** The upstream requests recorded in a log, in order. *)
Definition batch_calls (log : list event) : list (list string) :=
  flat_map (fun ev => match ev with
                      | ECreate _ input _ => [input]
                      | ESleep => []
                      end) log.

Definition sleeps (log : list event) : nat :=
  length (List.filter (fun ev => match ev with ESleep => true | _ => false end) log).
End Service.

(** What a run of the loop over [idxs] that is not interrupted leaves
    in the log. *)
Definition expected_events (texts : list string) (mdl : string)
    (batch_size : Z) (idxs : list Z) : list event :=
  flat_map (fun i =>
    ECreate mdl (py_slice texts i (i + batch_size)) true ::
    (if i + batch_size <? Z.of_nat (length texts) then [ESleep] else []))
    idxs.

(** A stand-in upstream used to exercise the theorem: it counts the
    requests it has served and answers each text with itself. *)
Definition echo_upstream (m : string) (inp : list string) (w : nat)
  : result (@ApiResponse string) * nat :=
  (Ok {| data := inp; api_usage := None |}, S w).

End Embeddings.

(** ** The service factory ([app/services/factory.py]) *)

Module Factory.

(** A keyword argument is a reference to an object or a plain string. *)
Inductive argval : Type :=
| Ref (id : nat)
| Str (s : string).

Definition kwargs : Type := list (string * argval).

(** A registered implementation class: calling it with keyword arguments
    runs [__init__], which completes ([None]) or raises. *)
Record Class : Type := mkClass {
  cls_name : string;
  cls_init : kwargs → option exn
}.

(** An object built from a class.  [obj_id] is its identity (two objects
    are the same object iff their identities agree); [obj_kwargs] are the
    arguments it was built from. *)
Record Instance : Type := mkInstance {
  obj_id : nat;
  obj_class : Class;
  obj_kwargs : kwargs
}.

(** The three fields of [settings] the factory reads. *)
Record Settings : Type := mkSettings {
  llm_provider : string;
  embeddings_provider : string;
  vector_store_provider : string
}.

Inductive Role : Type := LLM | Embeddings | VectorStore | Retrieval | Chat.

Global Instance Role_eq_dec : EqDecision Role.
Proof. solve_decision. Defined.

(** The class attributes of [ServiceFactory], followed by the interpreter's
    object allocator ([next_id]) and the record of every class invocation
    made by the factory, oldest first ([calls]). *)
Record State : Type := mkState {
  _llm_providers : list (string * Class);
  _embeddings_services : list (string * Class);
  _vector_stores : list (string * Class);
  _retrieval_strategies : list (string * Class);
  _chat_services : list (string * Class);
  _instances : gmap string Instance;
  next_id : nat;
  calls : list (Role * string)
}.

Definition initial : State :=
  {| _llm_providers := []; _embeddings_services := []; _vector_stores := [];
     _retrieval_strategies := []; _chat_services := [];
     _instances := ∅; next_id := 0%nat; calls := [] |}.

Definition set_instances (m : gmap string Instance) (s : State) : State :=
  {| _llm_providers := _llm_providers s;
     _embeddings_services := _embeddings_services s;
     _vector_stores := _vector_stores s;
     _retrieval_strategies := _retrieval_strategies s;
     _chat_services := _chat_services s;
     _instances := m; next_id := next_id s; calls := calls s |}.

Definition set_alloc (n : nat) (cs : list (Role * string)) (s : State) : State :=
  {| _llm_providers := _llm_providers s;
     _embeddings_services := _embeddings_services s;
     _vector_stores := _vector_stores s;
     _retrieval_strategies := _retrieval_strategies s;
     _chat_services := _chat_services s;
     _instances := _instances s; next_id := n; calls := cs |}.

Definition M (A : Type) : Type := State → result A * State.

Definition ret {A} (a : A) : M A := fun s => (Ok a, s).
Definition bind {A B} (m : M A) (k : A → M B) : M B :=
  fun s =>
    match m s with
    | (Ok a, s') => k a s'
    | (Raise e, s') => (Raise e, s')
    end.

(** Calling a class with keyword arguments: the invocation is recorded; if [__init__] completes, a
    new object is allocated. *)
Definition instantiate (r : Role) (name : string) (c : Class) (kw : kwargs)
  : M Instance :=
  fun s =>
    let cs := calls s ++ [(r, name)] in
    match cls_init c kw with
    | Some e => (Raise e, set_alloc (next_id s) cs s)
    | None =>
        (Ok {| obj_id := next_id s; obj_class := c; obj_kwargs := kw |},
         set_alloc (S (next_id s)) cs s)
    end.

(** *** Registration *)

Definition register_llm_provider (name : string) (c : Class) (s : State)
  : State :=
  {| _llm_providers := dict_set name c (_llm_providers s);
     _embeddings_services := _embeddings_services s;
     _vector_stores := _vector_stores s;
     _retrieval_strategies := _retrieval_strategies s;
     _chat_services := _chat_services s;
     _instances := _instances s; next_id := next_id s; calls := calls s |}.

Definition register_embeddings_service (name : string) (c : Class) (s : State)
  : State :=
  {| _llm_providers := _llm_providers s;
     _embeddings_services := dict_set name c (_embeddings_services s);
     _vector_stores := _vector_stores s;
     _retrieval_strategies := _retrieval_strategies s;
     _chat_services := _chat_services s;
     _instances := _instances s; next_id := next_id s; calls := calls s |}.

Definition register_vector_store (name : string) (c : Class) (s : State)
  : State :=
  {| _llm_providers := _llm_providers s;
     _embeddings_services := _embeddings_services s;
     _vector_stores := dict_set name c (_vector_stores s);
     _retrieval_strategies := _retrieval_strategies s;
     _chat_services := _chat_services s;
     _instances := _instances s; next_id := next_id s; calls := calls s |}.

Definition register_retrieval_strategy (name : string) (c : Class) (s : State)
  : State :=
  {| _llm_providers := _llm_providers s;
     _embeddings_services := _embeddings_services s;
     _vector_stores := _vector_stores s;
     _retrieval_strategies := dict_set name c (_retrieval_strategies s);
     _chat_services := _chat_services s;
     _instances := _instances s; next_id := next_id s; calls := calls s |}.

Definition register_chat_service (name : string) (c : Class) (s : State)
  : State :=
  {| _llm_providers := _llm_providers s;
     _embeddings_services := _embeddings_services s;
     _vector_stores := _vector_stores s;
     _retrieval_strategies := _retrieval_strategies s;
     _chat_services := dict_set name c (_chat_services s);
     _instances := _instances s; next_id := next_id s; calls := calls s |}.

Section WithSettings.
Variable settings : Settings.

(** *** Creation (never cached) *)

Definition create_llm_provider (provider_name : option string)
    (kw : kwargs) : M Instance :=
  fun s =>
    let provider_name := str_or provider_name (llm_provider settings) in
    match dict_get provider_name (_llm_providers s) with
    | None =>
        let available := dict_keys (_llm_providers s) in
        (Raise (ValueError [Lit "Unknown LLM provider: "; FStr provider_name;
                            Lit ". Available providers: "; FList available]),
         s)
    | Some provider_class => instantiate LLM provider_name provider_class kw s
    end.

Definition create_embeddings_service (service_name : option string)
    (kw : kwargs) : M Instance :=
  fun s =>
    let service_name := str_or service_name (embeddings_provider settings) in
    match dict_get service_name (_embeddings_services s) with
    | None =>
        let available := dict_keys (_embeddings_services s) in
        (Raise (ValueError [Lit "Unknown embeddings service: ";
                            FStr service_name;
                            Lit ". Available services: "; FList available]),
         s)
    | Some service_class =>
        instantiate Embeddings service_name service_class kw s
    end.

Definition create_vector_store (store_name : option string)
    (kw : kwargs) : M Instance :=
  fun s =>
    let store_name := str_or store_name (vector_store_provider settings) in
    match dict_get store_name (_vector_stores s) with
    | None =>
        let available := dict_keys (_vector_stores s) in
        (Raise (ValueError [Lit "Unknown vector store: "; FStr store_name;
                            Lit ". Available stores: "; FList available]),
         s)
    | Some store_class => instantiate VectorStore store_name store_class kw s
    end.

(** *** Singletons of the three leaf roles *)

Definition get_llm_provider (provider_name : option string) : M Instance :=
  fun s =>
    let provider_name := str_or provider_name (llm_provider settings) in
    let cache_key := String.append "llm_provider_" provider_name in
    match _instances s !! cache_key with
    | Some inst => (Ok inst, s)
    | None =>
        match create_llm_provider (Some provider_name) [] s with
        | (Ok inst, s') =>
            (Ok inst, set_instances (<[cache_key := inst]> (_instances s')) s')
        | (Raise e, s') => (Raise e, s')
        end
    end.

Definition get_embeddings_service (service_name : option string)
  : M Instance :=
  fun s =>
    let service_name := str_or service_name (embeddings_provider settings) in
    let cache_key := String.append "embeddings_service_" service_name in
    match _instances s !! cache_key with
    | Some inst => (Ok inst, s)
    | None =>
        match create_embeddings_service (Some service_name) [] s with
        | (Ok inst, s') =>
            (Ok inst, set_instances (<[cache_key := inst]> (_instances s')) s')
        | (Raise e, s') => (Raise e, s')
        end
    end.

Definition get_vector_store (store_name : option string) : M Instance :=
  fun s =>
    let store_name := str_or store_name (vector_store_provider settings) in
    let cache_key := String.append "vector_store_" store_name in
    match _instances s !! cache_key with
    | Some inst => (Ok inst, s)
    | None =>
        match create_vector_store (Some store_name) [] s with
        | (Ok inst, s') =>
            (Ok inst, set_instances (<[cache_key := inst]> (_instances s')) s')
        | (Raise e, s') => (Raise e, s')
        end
    end.

(** *** Retrieval strategies: built over a store and an embeddings
    service, resolved through the factory when not supplied *)

Definition create_retrieval_strategy (strategy_name : string)
    (vector_store embeddings_service : option Instance) (kw : kwargs)
  : M Instance :=
  fun s =>
    if negb (dict_mem strategy_name (_retrieval_strategies s)) then
      let available := dict_keys (_retrieval_strategies s) in
      (Raise (ValueError [Lit "Unknown retrieval strategy: ";
                          FStr strategy_name;
                          Lit ". Available strategies: "; FList available]),
       s)
    else
      bind (match vector_store with
            | None => get_vector_store None
            | Some v => ret v
            end) (fun vector_store =>
      bind (match embeddings_service with
            | None => get_embeddings_service None
            | Some e => ret e
            end) (fun embeddings_service =>
      fun s2 =>
        match dict_get strategy_name (_retrieval_strategies s2) with
        | None => (Raise (KeyError strategy_name), s2)
        | Some strategy_class =>
            instantiate Retrieval strategy_name strategy_class
              ([("vector_store", Ref (obj_id vector_store));
                ("embeddings_service", Ref (obj_id embeddings_service))]
               ++ kw) s2
        end)) s.

Definition get_retrieval_strategy (strategy_name : string) : M Instance :=
  fun s =>
    let cache_key := String.append "retrieval_strategy_" strategy_name in
    match _instances s !! cache_key with
    | Some inst => (Ok inst, s)
    | None =>
        match create_retrieval_strategy strategy_name None None [] s with
        | (Ok inst, s') =>
            (Ok inst, set_instances (<[cache_key := inst]> (_instances s')) s')
        | (Raise e, s') => (Raise e, s')
        end
    end.

(** *** Chat services: built over an LLM provider and a retrieval
    strategy *)

Definition create_chat_service (service_name : string)
    (llm retrieval_strategy : option Instance) (kw : kwargs)
  : M Instance :=
  fun s =>
    if negb (dict_mem service_name (_chat_services s)) then
      let available := dict_keys (_chat_services s) in
      (Raise (ValueError [Lit "Unknown chat service: "; FStr service_name;
                          Lit ". Available services: "; FList available]),
       s)
    else
      bind (match llm with
            | None => get_llm_provider None
            | Some l => ret l
            end) (fun llm =>
      bind (match retrieval_strategy with
            | None => get_retrieval_strategy "similarity"
            | Some r => ret r
            end) (fun retrieval_strategy =>
      fun s2 =>
        match dict_get service_name (_chat_services s2) with
        | None => (Raise (KeyError service_name), s2)
        | Some service_class =>
            instantiate Chat service_name service_class
              ([("llm_provider", Ref (obj_id llm));
                ("retrieval_strategy", Ref (obj_id retrieval_strategy))]
               ++ kw) s2
        end)) s.

Definition get_chat_service (service_name : string) : M Instance :=
  fun s =>
    let cache_key := String.append "chat_service_" service_name in
    match _instances s !! cache_key with
    | Some inst => (Ok inst, s)
    | None =>
        match create_chat_service service_name None None [] s with
        | (Ok inst, s') =>
            (Ok inst, set_instances (<[cache_key := inst]> (_instances s')) s')
        | (Raise e, s') => (Raise e, s')
        end
    end.

(** [clear_instances()] *)
Definition clear_instances (s : State) : State := set_instances ∅ s.

(** [get_available_providers()] *)
Definition get_available_providers (s : State)
  : list (string * list string) :=
  [("llm_providers", dict_keys (_llm_providers s));
   ("embeddings_services", dict_keys (_embeddings_services s));
   ("vector_stores", dict_keys (_vector_stores s));
   ("retrieval_strategies", dict_keys (_retrieval_strategies s));
   ("chat_services", dict_keys (_chat_services s))].

(** *** Readiness *)

(** One [try: ... except Exception: ...] block of
    [validate_all_connections]: fetch the singleton, await its
    [validate_connection()], record [False] on any exception.  [probe]
    is what [validate_connection()] does on a given object. *)
Definition try_validate (probe : Instance → result bool)
    (get : M Instance) (s : State) : bool * State :=
  match get s with
  | (Ok inst, s') =>
      match probe inst with
      | Ok b => (b, s')
      | Raise _ => (false, s')
      end
  | (Raise _, s') => (false, s')
  end.

Definition validate_all_connections (probe : Instance → result bool)
    (s : State) : list (string * bool) * State :=
  let results := [] in
  let '(b, s) := try_validate probe (get_llm_provider None) s in
  let results := dict_set "llm_provider" b results in
  let '(b, s) := try_validate probe (get_embeddings_service None) s in
  let results := dict_set "embeddings_service" b results in
  let '(b, s) := try_validate probe (get_vector_store None) s in
  let results := dict_set "vector_store" b results in
  (results, s).

(** The response of the [/ready] endpoint of [app/main.py] (the timestamp
    left out). *)
Record JSONResponse : Type := mkJSON {
  status_code : Z;
  status : string;
  services : list (string * bool)
}.

(** [all(connections.values())] *)
Definition all (bs : list bool) : bool := forallb (fun b => b) bs.

(** [readiness_check()].  Its own [except] branch is never taken:
    [validate_all_connections] catches every exception itself. *)
Definition readiness_check (probe : Instance → result bool) (s : State)
  : JSONResponse * State :=
  let '(connections, s') := validate_all_connections probe s in
  let all_healthy := all (dict_values connections) in
  ({| status_code := if all_healthy then 200 else 503;
      status := if all_healthy then "ready" else "not ready";
      services := connections |}, s').

(** *** The role-indexed view used by the specification *)

Definition registry (r : Role) (s : State) : list (string * Class) :=
  match r with
  | LLM => _llm_providers s
  | Embeddings => _embeddings_services s
  | VectorStore => _vector_stores s
  | Retrieval => _retrieval_strategies s
  | Chat => _chat_services s
  end.

Definition register (r : Role) (name : string) (c : Class) (s : State)
  : State :=
  match r with
  | LLM => register_llm_provider name c s
  | Embeddings => register_embeddings_service name c s
  | VectorStore => register_vector_store name c s
  | Retrieval => register_retrieval_strategy name c s
  | Chat => register_chat_service name c s
  end.

(** The name a call resolves to: an omitted or empty name of a leaf role
    falls back to the settings; an omitted strategy or chat name takes
    the default of the parameter. *)
Definition effective_name (r : Role) (name : option string) : string :=
  match r with
  | LLM => str_or name (llm_provider settings)
  | Embeddings => str_or name (embeddings_provider settings)
  | VectorStore => str_or name (vector_store_provider settings)
  | Retrieval => default "similarity" name
  | Chat => default "default" name
  end.

Definition key_prefix (r : Role) : string :=
  match r with
  | LLM => "llm_provider_"
  | Embeddings => "embeddings_service_"
  | VectorStore => "vector_store_"
  | Retrieval => "retrieval_strategy_"
  | Chat => "chat_service_"
  end.

Definition cache_key (r : Role) (name : option string) : string :=
  String.append (key_prefix r) (effective_name r name).

(** [create(role, name, params)]; the two optional dependencies are only
    read by the composite roles. *)
Definition create (r : Role) (name : option string)
    (dep1 dep2 : option Instance) (kw : kwargs) : M Instance :=
  match r with
  | LLM => create_llm_provider name kw
  | Embeddings => create_embeddings_service name kw
  | VectorStore => create_vector_store name kw
  | Retrieval => create_retrieval_strategy (default "similarity" name) dep1 dep2 kw
  | Chat => create_chat_service (default "default" name) dep1 dep2 kw
  end.

(** [get(role, name)] *)
Definition get (r : Role) (name : option string) : M Instance :=
  match r with
  | LLM => get_llm_provider name
  | Embeddings => get_embeddings_service name
  | VectorStore => get_vector_store name
  | Retrieval => get_retrieval_strategy (default "similarity" name)
  | Chat => get_chat_service (default "default" name)
  end.

(** How often the class registered for [(r, name)] has been invoked. *)
Definition invocations (r : Role) (name : string) (s : State) : nat :=
  length (List.filter (fun c => bool_decide (c = (r, name))) (calls s)).

(** *** Histories of factory calls *)

Inductive op : Type :=
| OpRegister (r : Role) (name : string) (c : Class)
| OpCreate (r : Role) (name : option string) (dep1 dep2 : option Instance)
    (kw : kwargs)
| OpGet (r : Role) (name : option string)
| OpClear
| OpValidate (probe : Instance → result bool).

Definition run_op (s : State) (o : op) : State :=
  match o with
  | OpRegister r name c => register r name c s
  | OpCreate r name d1 d2 kw => snd (create r name d1 d2 kw s)
  | OpGet r name => snd (get r name s)
  | OpClear => clear_instances s
  | OpValidate probe => snd (validate_all_connections probe s)
  end.

Definition run (ops : list op) (s : State) : State := fold_left run_op ops s.

(** The states the factory can be in: those a history of calls leads to
    from the state at import. *)
Definition reachable (s : State) : Prop := ∃ ops, s = run ops initial.

Definition is_clear (o : op) : bool :=
  match o with OpClear => true | _ => false end.
End WithSettings.

(** *** How factory calls change the state

    Every call other than a registration or [clear_instances] changes the
    state by steps of two kinds: a class of one of the roles [rs] is
    invoked (and may allocate an object), or an object that already
    exists is stored in a free cache slot of a registered name of one of
    the roles [rs]. *)

Inductive grow1 (rs : list Role) : State → State → Prop :=
| grow_call s r nm (allocated : bool) :
    r ∈ rs →
    grow1 rs s (set_alloc (if allocated then S (next_id s) else next_id s)
                  (calls s ++ [(r, nm)]) s)
| grow_cache s r nm inst :
    r ∈ rs →
    _instances s !! String.append (key_prefix r) nm = None →
    dict_mem nm (registry r s) = true →
    (obj_id inst < next_id s)%nat →
    grow1 rs s (set_instances
                  (<[String.append (key_prefix r) nm := inst]> (_instances s)) s).

Definition grow (rs : list Role) : State → State → Prop := rtc (grow1 rs).

(** *** The invariant of reachable states

    Every cached object sits in the slot of a registered name of some
    role, and has been allocated. *)
Definition wf (s : State) : Prop :=
  ∀ k inst, _instances s !! k = Some inst →
    (∃ r n, k = String.append (key_prefix r) n ∧
            dict_mem n (registry r s) = true) ∧
    (obj_id inst < next_id s)%nat.

(** The roles a role is built over. *)
Definition deps (r : Role) : list Role :=
  match r with
  | Retrieval => [VectorStore; Embeddings]
  | Chat => [LLM; VectorStore; Embeddings; Retrieval]
  | _ => []
  end.

(** The error raised for a name that is not registered. *)
Definition unknown_error (r : Role) (n : string) (available : list string)
  : exn :=
  match r with
  | LLM => ValueError [Lit "Unknown LLM provider: "; FStr n;
                       Lit ". Available providers: "; FList available]
  | Embeddings => ValueError [Lit "Unknown embeddings service: "; FStr n;
                              Lit ". Available services: "; FList available]
  | VectorStore => ValueError [Lit "Unknown vector store: "; FStr n;
                               Lit ". Available stores: "; FList available]
  | Retrieval => ValueError [Lit "Unknown retrieval strategy: "; FStr n;
                             Lit ". Available strategies: "; FList available]
  | Chat => ValueError [Lit "Unknown chat service: "; FStr n;
                        Lit ". Available services: "; FList available]
  end.

(** What a [create] does: it first resolves the dependencies (steps of
    the roles in [deps r]); then either it has failed before reaching the
    class, or the class registered under the resolved name is invoked
    once and, if that succeeds, yields a new object. *)
Definition create_post (r : Role) (n : string) (s : State)
    (res : result Instance) (s' : State) : Prop :=
  ∃ s2, grow (deps r) s s2 ∧
    ((is_ok res = false ∧ s' = s2) ∨
     (∃ c (b : bool),
        dict_get n (registry r s) = Some c ∧
        s' = set_alloc (if b then S (next_id s2) else next_id s2)
               (calls s2 ++ [(r, n)]) s2 ∧
        is_ok res = b ∧
        ∀ inst, res = Ok inst → obj_id inst = next_id s2 ∧ obj_class inst = c)).

(** *** When a [get] can be served

    A class constructs when called the way the factory calls it: without
    arguments for the three leaf roles, with the two dependencies (and
    whatever else) for a strategy or a chat service. *)
Definition constructs (r : Role) (c : Class) : Prop :=
  match r with
  | Retrieval | Chat => ∀ kw, cls_init c kw = None
  | _ => cls_init c [] = None
  end.

(** The name the call resolves to has a registered class that
    constructs. *)
Definition buildable (settings : Settings) (r : Role)
    (name : option string) (s : State) : Prop :=
  ∃ c, dict_get (effective_name settings r name) (registry r s) = Some c ∧
       constructs r c.

Definition cached (settings : Settings) (r : Role) (name : option string)
    (s : State) : Prop :=
  is_Some (_instances s !! cache_key settings r name).

(** A singleton is at hand: cached already, or buildable. *)
Definition available (settings : Settings) (r : Role)
    (name : option string) (s : State) : Prop :=
  cached settings r name s ∨ buildable settings r name s.

(** Everything a [get] needs is there: the singleton is cached, or its
    class is registered and constructs and so is, or is cached, each
    default singleton it is built over. *)
Definition obtainable (settings : Settings) (r : Role)
    (name : option string) (s : State) : Prop :=
  cached settings r name s ∨
  (buildable settings r name s ∧
   match r with
   | Retrieval =>
       available settings VectorStore None s ∧
       available settings Embeddings None s
   | Chat =>
       available settings LLM None s ∧
       (cached settings Retrieval (Some "similarity") s ∨
        (buildable settings Retrieval (Some "similarity") s ∧
         available settings VectorStore None s ∧
         available settings Embeddings None s))
   | _ => True
   end).

(** The same by registrations alone: the class of the key, and of every
    default singleton under it, is registered and constructs. *)
Definition constructible (settings : Settings) (r : Role)
    (name : option string) (s : State) : Prop :=
  buildable settings r name s ∧
  match r with
  | Retrieval =>
      buildable settings VectorStore None s ∧
      buildable settings Embeddings None s
  | Chat =>
      buildable settings LLM None s ∧
      buildable settings Retrieval (Some "similarity") s ∧
      buildable settings VectorStore None s ∧
      buildable settings Embeddings None s
  | _ => True
  end.

(** What probing one role on its own, from state [s], records. *)
Definition verdict (settings : Settings) (probe : Instance → result bool)
    (r : Role) (s : State) : bool :=
  fst (try_validate probe (get settings r None) s).

(** The outcome of a connection check does not depend on the identity of
    the object it is run on. *)
Definition identity_blind (probe : Instance → result bool) : Prop :=
  ∀ i j, obj_class i = obj_class j → obj_kwargs i = obj_kwargs j →
         probe i = probe j.

(** *** A concrete factory, used to exercise the theorems *)

Definition demo_settings : Settings :=
  {| llm_provider := "openai"; embeddings_provider := "openai";
     vector_store_provider := "pinecone" |}.

(** A class whose constructor never raises. *)
Definition plain (n : string) : Class :=
  {| cls_name := n; cls_init := fun _ => None |}.

(** The registrations made by [auto_register_services] when every
    implementation module can be imported (only one vector store shown). *)
Definition demo_ops : list op :=
  [OpRegister LLM "openai" (plain "OpenAIProvider");
   OpRegister Embeddings "openai" (plain "OpenAIEmbeddings");
   OpRegister VectorStore "pinecone" (plain "PineconeStore");
   OpRegister Retrieval "similarity" (plain "SimilarityStrategy");
   OpRegister Chat "default" (plain "DefaultChatService")].

Definition demo_state : State := run demo_settings demo_ops initial.

(** The same factory after its LLM singleton has been built. *)
Definition demo_cached : State :=
  run demo_settings (demo_ops ++ [OpGet LLM None]) initial.

(** The same factory after its chat service, and with it all five
    singletons, has been built. *)
Definition demo_chat_cached : State :=
  run demo_settings (demo_ops ++ [OpGet Chat None]) initial.

(** A connection check under which only the vector store is down. *)
Definition demo_probe (inst : Instance) : result bool :=
  if String.eqb (cls_name (obj_class inst)) "PineconeStore"
  then Raise (ProviderError "connection refused")
  else Ok true.

End Factory.

(** ** The service factory: failing classes and further states *)

Module FactoryCases.
Import Factory.

(** The key under which [validate_all_connections] records a role. *)
Definition result_key (r : Role) : string :=
  match r with
  | LLM => "llm_provider"
  | Embeddings => "embeddings_service"
  | _ => "vector_store"
  end.

(** A class whose constructor always raises [e]. *)
Definition failing (n : string) (e : exn) : Class :=
  {| cls_name := n; cls_init := fun _ => Some e |}.

Definition demo_error : exn := ProviderError "api key missing".

(** A factory whose LLM class cannot be constructed. *)
Definition demo_broken : State :=
  run demo_settings
    [OpRegister LLM "openai" (failing "OpenAIProvider" demo_error)] initial.


End FactoryCases.

(** ** Request admission ([app/core/security.py], [app/main.py]) *)

Module Security.
Import RateLimiter.

(** [HTTPException(status_code, detail, headers)] *)
Record HTTPException : Type := mkHTTP {
  http_status : Z;
  detail : string;
  http_headers : list (string * string)
}.

(** How a call of the HTTP layer ends: it returns, raises an
    [HTTPException], or lets another exception through. *)
Inductive outcome (A : Type) : Type :=
| Return (a : A)
| HTTPRaise (e : HTTPException)
| Propagate (e : exn).
Arguments Return {A} a.
Arguments HTTPRaise {A} e.
Arguments Propagate {A} e.

(** [check_rate_limit(request)] on the global limiter, at clock reading
    [now]. *)
Definition check_rate_limit (rate_limiter : t) (request : Request) (now : Z)
  : outcome unit * t :=
  let client_id := get_client_id request in
  match is_allowed rate_limiter client_id now with
  | (Raise e, rl) => (Propagate e, rl)
  | (Ok true, rl) => (Return tt, rl)
  | (Ok false, rl) =>
      (HTTPRaise (mkHTTP 429 "Rate limit exceeded. Please try again later."
                    [("Retry-After", "60")]), rl)
  end.

(** What [RateLimitMiddleware.dispatch] does with a request: hand it to
    the next handler ([return await call_next(request)]), answer it
    itself, or fail with an exception. *)
Inductive action : Type :=
| CallNext
| Respond (status : Z) (content : list (string * string))
    (headers : list (string * string))
| Fail (e : exn).

Definition exempt_paths : list string :=
  ["/health"; "/ready"; "/docs"; "/redoc"; "/openapi.json"].

(** [RateLimitMiddleware.dispatch(request, call_next)] for a request with
    URL path [path]; only [HTTPException] is caught. *)
Definition dispatch (rate_limiter : t) (path : string) (request : Request)
    (now : Z) : action * t :=
  if bool_decide (path ∈ exempt_paths) then (CallNext, rate_limiter)
  else
    match check_rate_limit rate_limiter request now with
    | (HTTPRaise _, rl) =>
        (Respond 429
           [("error", "Rate limit exceeded. Please try again later.")]
           [("Retry-After", "60")], rl)
    | (Propagate e, rl) => (Fail e, rl)
    | (Return _, rl) => (CallNext, rl)
    end.

(** A series of admission checks on one limiter, each with its client and
    clock reading; the outcomes in order, and the limiter at the end. *)
Fixpoint is_allowed_all (rl : t) (checks : list (string * Z))
  : list (result bool) * t :=
  match checks with
  | [] => ([], rl)
  | (client_id, now) :: checks' =>
      let '(r, rl') := is_allowed rl client_id now in
      let '(rs, rl'') := is_allowed_all rl' checks' in
      (r :: rs, rl'')
  end.

(** [APIKeyAuth]: [self.api_keys], a set used for membership and
    emptiness only. *)
Record APIKeyAuth : Type := mkAuth { api_keys : list string }.

(** [APIKeyAuth(api_keys)], with [settings.security.allowed_api_keys] as
    [allowed]: [api_keys or allowed]. *)
Definition APIKeyAuth_init (keys : option (list string))
    (allowed : list string) : APIKeyAuth :=
  match keys with
  | Some (k :: ks) => mkAuth (k :: ks)
  | _ => mkAuth allowed
  end.

(** [APIKeyAuth.__call__(api_key)] *)
Definition APIKeyAuth_call (self : APIKeyAuth) (api_key : option string)
  : outcome string :=
  if negb (truthy api_key) then
    HTTPRaise (mkHTTP 401 "API key required" [])
  else
    let k := default "" api_key in
    if match api_keys self with [] => true | _ => false end
       || negb (bool_decide (k ∈ api_keys self))
    then HTTPRaise (mkHTTP 401 "Invalid API key" [])
    else Return k.

End Security.

(** ** Input sanitising ([app/core/security.py]) *)

Module Validation.
Import RateLimiter.

(** [s.split()] on ASCII text: the maximal runs of characters that are
    not whitespace. *)
Fixpoint split_ws (s : string) : list string :=
  match s with
  | EmptyString => []
  | String c s' =>
      if is_space c then split_ws s'
      else
        let rest := split_ws s' in
        match s' with
        | EmptyString => [String c EmptyString]
        | String c' _ =>
            if is_space c' then String c EmptyString :: rest
            else match rest with
                 | w :: ws => String c w :: ws
                 | [] => [String c EmptyString]
                 end
        end
  end.

(** [' '.join(ws)] *)
Fixpoint join_sp (ws : list string) : string :=
  match ws with
  | [] => EmptyString
  | w :: ws' =>
      match ws' with
      | [] => w
      | _ => String.append w (String " "%char (join_sp ws'))
      end
  end.

(** [text[:n]] *)
Definition prefix_slice (text : string) (n : Z) : string :=
  String.substring 0
    (Z.to_nat (Embeddings.clamp (Z.of_nat (String.length text)) n)) text.

(** [sanitize_input(text, max_length)]; the argument is a [str], so the
    [isinstance] guard passes. *)
Definition sanitize_input (text : string) (max_length : Z) : string :=
  let text :=
    if max_length <? Z.of_nat (String.length text)
    then prefix_slice text max_length
    else text in
  let text := strip text in
  let text := join_sp (split_ws text) in
  text.

(** A word: not empty and free of whitespace. *)
Fixpoint nonspace (s : string) : bool :=
  match s with
  | EmptyString => true
  | String c s' => negb (is_space c) && nonspace s'
  end.

Definition is_word (w : string) : bool :=
  negb (String.eqb w "") && nonspace w.

(** Whether the last character, if any, is not whitespace. *)
Fixpoint ends_nonspace (s : string) : bool :=
  match s with
  | EmptyString => true
  | String c EmptyString => negb (is_space c)
  | String _ s' => ends_nonspace s'
  end.

End Validation.

(** ** Upload validation ([app/core/security.py]) *)

Module Upload.

(** The pieces of the detail message of a rejection: literal text, an
    interpolated integer, an interpolated list of strings. *)
Inductive part : Type :=
| PLit (s : string)
| PInt (n : Z)
| PStrs (l : list string).

(** How [validate_file_upload] ends: it returns, or raises
    [HTTPException(status_code, detail)]. *)
Inductive upload_verdict : Type :=
| Accepted
| Rejected (status_code : Z) (detail : list part).

(** [str.lower()] on an ASCII character and on ASCII text. *)
Definition lower_char (c : ascii) : ascii :=
  let n := nat_of_ascii c in
  if (65 <=? n)%nat && (n <=? 90)%nat then ascii_of_nat (n + 32) else c.

Fixpoint lower (s : string) : string :=
  match s with
  | EmptyString => EmptyString
  | String c s' => String (lower_char c) (lower s')
  end.

(** [s.startswith(p)] *)
Fixpoint startswith (p s : string) : bool :=
  match p, s with
  | EmptyString, _ => true
  | String _ _, EmptyString => false
  | String a p', String b s' => Ascii.eqb a b && startswith p' s'
  end.

(** [sub in s] *)
Fixpoint contains (sub s : string) : bool :=
  startswith sub s ||
  match s with
  | EmptyString => false
  | String _ s' => contains sub s'
  end.

(** [s.split('.')]: never empty. *)
Fixpoint split_dot (s : string) : list string :=
  match s with
  | EmptyString => [EmptyString]
  | String c s' =>
      if Ascii.eqb c "."%char then EmptyString :: split_dot s'
      else match split_dot s' with
           | w :: ws => String c w :: ws
           | [] => [String c EmptyString]
           end
  end.

Definition default_extensions : list string :=
  [".txt"; ".pdf"; ".docx"; ".doc"; ".md"].

(** [dangerous_chars]; the backslash and the double quote are given by
    their codes. *)
Definition dangerous_chars : list string :=
  [".."; "/"; String (ascii_of_nat 92) EmptyString; "<"; ">"; ":";
   String (ascii_of_nat 34) EmptyString; "|"; "?"; "*"].

(** [validate_file_upload(filename, file_size, allowed_extensions)], with
    [settings.max_document_size] as a parameter. *)
Definition validate_file_upload (max_document_size : Z) (filename : string)
    (file_size : Z) (allowed_extensions : option (list string))
  : upload_verdict :=
  let allowed_extensions :=
    match allowed_extensions with
    | None => default_extensions
    | Some l => l
    end in
  if max_document_size <? file_size then
    Rejected 413 [PLit "File too large. Maximum size: ";
                  PInt max_document_size; PLit " bytes"]
  else
    let extension_ok :=
      if negb (String.eqb filename "") then
        let extension :=
          if contains "." filename
          then String.append "." (List.last (split_dot (lower filename)) "")
          else "" in
        bool_decide (extension ∈ allowed_extensions)
      else true in
    if negb extension_ok then
      Rejected 400 [PLit "File type not allowed. Allowed types: ";
                    PStrs allowed_extensions]
    else if String.eqb filename "" || (255 <? Z.of_nat (String.length filename))
    then Rejected 400 [PLit "Invalid filename"]
    else if existsb (fun char => contains char filename) dangerous_chars
    then Rejected 400 [PLit "Filename contains invalid characters"]
    else Accepted.

(** A character that [lower] neither changes nor produces. *)
Definition caseless (c : ascii) : bool :=
  let n := nat_of_ascii c in
  negb ((65 <=? n)%nat && (n <=? 90)%nat) &&
  negb ((97 <=? n)%nat && (n <=? 122)%nat).

Fixpoint caseless_string (s : string) : bool :=
  match s with
  | EmptyString => true
  | String c s' => caseless c && caseless_string s'
  end.

End Upload.

(** ** Text truncation and a failing upstream
    ([app/services/embeddings/openai_embeddings.py]) *)

Module EmbeddingsText.
Import Embeddings Validation.

(** [token_limits], local to [truncate_text] *)
Definition token_limits : list (string * Z) :=
  [("text-embedding-ada-002", 8191);
   ("text-embedding-3-small", 8191);
   ("text-embedding-3-large", 8191)].

(** [truncate_text(text, model)]; the warning it logs is not modelled. *)
Definition truncate_text (default_model : string) (text : string)
    (model : option string) : string :=
  let model := str_or model default_model in
  let max_tokens := default 8191 (dict_get model token_limits) in
  let max_chars := max_tokens * 4 in
  if Z.of_nat (String.length text) <=? max_chars then text
  else prefix_slice text max_chars.

(** A stand-in upstream that serves two requests and fails from the
    third on. *)
Definition failing_upstream (m : string) (inp : list string) (w : nat)
  : result (@ApiResponse string) * nat :=
  if (2 <=? w)%nat then (Raise (ProviderError "rate limited"), S w)
  else (Ok {| data := inp; api_usage := None |}, S w).

End EmbeddingsText.

(** ** Merging YAML overrides into the settings ([app/core/config.py]) *)

Module Config.
Section Values.
(** [A] stands for the values the merge never looks into: numbers,
    strings, booleans, lists, [None]. *)
Context {A : Type}.

(** A value of a settings or YAML dictionary: a plain value, a nested
    [dict], or an object with a [model_dump()] method, given by the
    dictionary that method returns. *)
#[local] Unset Elimination Schemes.
Inductive pyval : Type :=
| VOther (a : A)
| VDict (d : list (string * pyval))
| VModel (dump : list (string * pyval)).
#[local] Set Elimination Schemes.

(** One iteration of the loop of [_merge_yaml_config], with [rec sd yd]
    the recursive call on a nested pair of dictionaries.  A nested
    dictionary is updated in place, which for the enclosing dictionary is
    the same as storing the merged dictionary under its key. *)
Definition merge_entry
    (rec : list (string * pyval) → list (string * pyval))
    (settings_dict : list (string * pyval)) (key : string) (value : pyval)
  : list (string * pyval) :=
  match value with
  | VDict _ =>
      match dict_get key settings_dict with
      | Some (VDict sd) => dict_set key (VDict (rec sd)) settings_dict
      | Some (VModel model_dict) =>
          dict_set key (VDict (rec model_dict)) settings_dict
      | Some (VOther _) => settings_dict
      | None => dict_set key value settings_dict
      end
  | _ => dict_set key value settings_dict
  end.

(** [_merge_yaml_config(settings_dict, yaml_config)], returning the
    dictionary that the source updates in place; [merge_value] is the
    same function on the YAML side wrapped as a value. *)
Fixpoint merge_value (yaml : pyval) (settings_dict : list (string * pyval))
    {struct yaml} : list (string * pyval) :=
  match yaml with
  | VDict yaml_config =>
      (fix loop (items : list (string * pyval))
           (settings_dict : list (string * pyval)) {struct items}
         : list (string * pyval) :=
         match items with
         | [] => settings_dict
         | (key, value) :: items' =>
             loop items'
               (merge_entry (merge_value value) settings_dict key value)
         end) yaml_config settings_dict
  | _ => settings_dict
  end.

Definition _merge_yaml_config
    (settings_dict yaml_config : list (string * pyval))
  : list (string * pyval) :=
  merge_value (VDict yaml_config) settings_dict.

(** What [yaml.safe_load] can produce: dictionaries have no repeated key,
    at any depth, and there are no model objects. *)
Fixpoint yaml_value (v : pyval) : bool :=
  match v with
  | VOther _ => true
  | VDict d =>
      bool_decide (NoDup (dict_keys d)) &&
      (fix all (d : list (string * pyval)) : bool :=
         match d with
         | [] => true
         | (_, x) :: d' => yaml_value x && all d'
         end) d
  | VModel _ => false
  end.

(** What an entry [(key, value)] of the YAML leaves under [key]. *)
Definition merged_value (settings_dict : list (string * pyval))
    (key : string) (value : pyval) : pyval :=
  match value with
  | VDict yd =>
      match dict_get key settings_dict with
      | Some (VDict sd) => VDict (_merge_yaml_config sd yd)
      | Some (VModel model_dict) => VDict (_merge_yaml_config model_dict yd)
      | Some (VOther a) => VOther a
      | None => value
      end
  | _ => value
  end.

(** Induction on values that reaches into nested dictionaries. *)
Section Induction.
Variable P : pyval → Prop.
Hypothesis HOther : ∀ a, P (VOther a).
Hypothesis HDict : ∀ d, Forall (fun kv => P (snd kv)) d → P (VDict d).
Hypothesis HModel : ∀ d, Forall (fun kv => P (snd kv)) d → P (VModel d).

Fixpoint pyval_nested_ind (v : pyval) : P v :=
  match v with
  | VOther a => HOther a
  | VDict d =>
      HDict d
        ((fix entries (d : list (string * pyval))
            : Forall (fun kv => P (snd kv)) d :=
            match d with
            | [] => @List.Forall_nil _ (fun kv => P (snd kv))
            | (k, x) :: d' =>
                @List.Forall_cons _ (fun kv => P (snd kv)) (k, x) d'
                  (pyval_nested_ind x) (entries d')
            end) d)
  | VModel d =>
      HModel d
        ((fix entries (d : list (string * pyval))
            : Forall (fun kv => P (snd kv)) d :=
            match d with
            | [] => @List.Forall_nil _ (fun kv => P (snd kv))
            | (k, x) :: d' =>
                @List.Forall_cons _ (fun kv => P (snd kv)) (k, x) d'
                  (pyval_nested_ind x) (entries d')
            end) d)
  end.
End Induction.

(** The keys of [yaml_config] that [settings_dict] does not have. *)
Definition new_keys (settings_dict yaml_config : list (string * pyval))
  : list string :=
  List.filter (fun k => negb (dict_mem k settings_dict))
    (dict_keys yaml_config).
End Values.

(** A small settings dictionary and a YAML override for it. *)
Definition demo_settings_dict : list (string * @pyval string) :=
  [("app_name", VOther "RAG Chatbot");
   ("api", VDict [("host", VOther "0.0.0.0"); ("port", VOther "8000")]);
   ("openai", VModel [("model", VOther "gpt-4")]);
   ("llm_provider", VOther "openai")].

Definition demo_yaml : list (string * @pyval string) :=
  [("api", VDict [("port", VOther "9000"); ("workers", VOther "4")]);
   ("llm_provider", VDict [("name", VOther "anthropic")]);
   ("openai", VDict [("model", VOther "gpt-4o")]);
   ("redis", VDict [("ttl", VOther "60")])].

End Config.

(** * Properties *)

(** ** Dictionaries *)

Module PyDictFacts.
Section Dict.
Context {K V : Type} `{EqDecision K}.
Implicit Types (k : K) (v : V) (d : list (K * V)).

Lemma dict_get_set_eq k v d : dict_get k (dict_set k v d) = Some v.
Proof.
  induction d as [|[k' v'] d IH]; simpl.
  - by rewrite decide_True.
  - destruct (decide (k = k')) as [->|Hne]; simpl.
    + by rewrite decide_True.
    + by rewrite decide_False.
Qed.

Lemma dict_get_set_ne k k' v d :
  k ≠ k' → dict_get k' (dict_set k v d) = dict_get k' d.
Proof.
  intros Hne. induction d as [|[k0 v0] d IH]; simpl.
  - rewrite decide_False; [done | congruence].
  - destruct (decide (k = k0)) as [->|Hne0]; simpl.
    + rewrite !decide_False; [done | congruence | congruence].
    + destruct (decide (k' = k0)); [done | apply IH].
Qed.

Lemma dict_get_keys k d : is_Some (dict_get k d) ↔ k ∈ dict_keys d.
Proof.
  induction d as [|[k0 v0] d IH]; simpl.
  - split; [intros [? ?]; discriminate | intros H; inversion H].
  - destruct (decide (k = k0)) as [->|Hne].
    + split; [intros _; apply list_elem_of_here | eauto].
    + rewrite IH. split.
      * intros H. by apply list_elem_of_further.
      * intros H. apply elem_of_cons in H as [?|?]; [congruence | done].
Qed.

Lemma dict_mem_true k d : dict_mem k d = true ↔ k ∈ dict_keys d.
Proof.
  rewrite <- dict_get_keys. unfold dict_mem.
  destruct (dict_get k d); split; eauto; try discriminate.
  intros [? ?]; discriminate.
Qed.

Lemma dict_mem_false k d : dict_mem k d = false ↔ k ∉ dict_keys d.
Proof.
  rewrite <- dict_mem_true. destruct (dict_mem k d); split; congruence.
Qed.
Lemma dict_get_set k k' v d :
  dict_get k' (dict_set k v d) = if decide (k = k') then Some v else dict_get k' d.
Proof.
  destruct (decide (k = k')) as [->|Hne].
  - apply dict_get_set_eq.
  - by apply dict_get_set_ne.
Qed.

Lemma dict_mem_set k k' v d :
  dict_mem k' (dict_set k v d) = if decide (k = k') then true else dict_mem k' d.
Proof.
  unfold dict_mem. rewrite dict_get_set. by destruct (decide (k = k')).
Qed.
End Dict.
End PyDictFacts.
Import PyDictFacts.

(** ** Rate limiter *)

Module RateLimiterSpec.
Import RateLimiter.

(** The cleanup comprehension fails on its first key. *)
Lemma old_minutes_cons m keys minute :
  old_minutes (m :: keys) minute = Raise tuple_int_error.
Proof. reflexivity. Qed.

(** On a limiter that holds any entry, an admission check raises and
    leaves the limiter as it was. *)
Lemma is_allowed_nonempty self client_id now :
  requests self ≠ [] →
  is_allowed self client_id now = (Raise tuple_int_error, self).
Proof.
  intros Hne. unfold is_allowed.
  destruct (requests self) as [|[m n] reqs]; [done|]. reflexivity.
Qed.

(** On a limiter without entries the check decides by the ceiling alone. *)
Lemma is_allowed_empty rpm client_id now :
  is_allowed (init rpm) client_id now =
  if rpm <=? 0 then (Ok false, init rpm)
  else (Ok true, mk rpm [((client_id, now / 60), 1)]).
Proof. unfold is_allowed, init; simpl. by destruct (rpm <=? 0). Qed.

Example strip_example : strip "  203.0.113.7	 " = "203.0.113.7".
Proof. reflexivity. Qed.

(** The two whitespace characters beyond ASCII that a header value can
    carry, U+00A0 in front and U+0085 behind, are stripped as well. *)
Example strip_latin1 :
  strip (String (ascii_of_nat 160)
           (String.append "1.2.3.4" (String (ascii_of_nat 133) EmptyString)))
  = "1.2.3.4".
Proof. reflexivity. Qed.

Example split_example :
  split_comma_first "203.0.113.7, 70.41.3.18, 150.172.238.178" = "203.0.113.7".
Proof. reflexivity. Qed.

(** C2, evaluated on the code.  With a ceiling of 2 the first admission
    check of a client returns true; the second check in the same minute,
    which is still within the ceiling, raises a [TypeError] from the
    cleanup step instead of returning true, and so does a check made after
    the clock has moved to the next minute.  The limiter is left
    unchanged by the failing calls. *)
Theorem second_admission_raises :
  ∃ l1,
    is_allowed (init 2) "client" 0 = (Ok true, l1) ∧
    is_allowed l1 "client" 1 = (Raise tuple_int_error, l1) ∧
    is_allowed l1 "client" 60 = (Raise tuple_int_error, l1).
Proof. eexists. repeat split. Qed.

(** C3, evaluated on the code.  After one admitted request in minute 0, an
    admission check in minute 3 raises a [TypeError] from the cleanup
    step, and the entry of minute 0, which is older than minute 3 - 1,
    is still stored. *)
Theorem stale_bucket_not_pruned :
  ∃ l1 l2 r,
    is_allowed (init 100) "client" 0 = (Ok true, l1) ∧
    is_allowed l1 "client" 180 = (r, l2) ∧
    r = Raise tuple_int_error ∧
    dict_get ("client", 0) (requests l2) = Some 1 ∧
    0 < 180 / 60 - 1.
Proof. do 3 eexists. repeat split. Qed.

(** C9 as stated, refuted: a request carrying both headers is identified
    by [X-Real-IP], not by the first [X-Forwarded-For] entry. *)
Lemma forwarded_for_not_preferred :
  ¬ (∀ request f,
        dict_get "X-Forwarded-For" (headers request) = Some f →
        f ≠ "" →
        get_client_id request = strip (split_comma_first f)).
Proof.
  intros H.
  specialize (H (mkRequest (Some "10.0.0.1")
                   [("X-Forwarded-For", "203.0.113.7, 70.41.3.18");
                    ("X-Real-IP", "198.51.100.9")])
                "203.0.113.7, 70.41.3.18" eq_refl).
  vm_compute in H. by specialize (H ltac:(discriminate)).
Qed.

(** C9, amended.  The client identifier is the [X-Real-IP] header when it
    is present and not empty; otherwise the first comma-separated entry
    of [X-Forwarded-For], stripped of surrounding whitespace, when that
    header is present and not empty; otherwise the address of the direct
    peer, or ["unknown"] when the request has no peer. *)
Theorem client_id_resolution (request : Request) :
  let forwarded_for := dict_get "X-Forwarded-For" (headers request) in
  let real_ip := dict_get "X-Real-IP" (headers request) in
  (∀ r, real_ip = Some r → r ≠ "" → get_client_id request = r) ∧
  (truthy real_ip = false →
   ∀ f, forwarded_for = Some f → f ≠ "" →
        get_client_id request = strip (split_comma_first f)) ∧
  (truthy real_ip = false → truthy forwarded_for = false →
   get_client_id request = default "unknown" (client_host request)).
Proof.
  unfold get_client_id. cbv zeta. repeat split.
  - intros r -> Hr. simpl.
    destruct (String.eqb_spec r ""); [done|]. reflexivity.
  - intros -> f -> Hf. simpl.
    destruct (String.eqb_spec f ""); [done|]. reflexivity.
  - intros -> ->. by destruct (client_host request).
Qed.

Lemma client_id_resolution_witness :
  get_client_id (mkRequest (Some "10.0.0.1")
                   [("X-Forwarded-For", "203.0.113.7, 70.41.3.18");
                    ("X-Real-IP", "198.51.100.9")]) = "198.51.100.9"
  ∧ get_client_id (mkRequest (Some "10.0.0.1")
                     [("X-Forwarded-For", " 203.0.113.7 , 70.41.3.18")])
    = "203.0.113.7"
  ∧ get_client_id (mkRequest (Some "10.0.0.1") []) = "10.0.0.1".
Proof.
  split; [|split].
  - apply (proj1 (client_id_resolution _) "198.51.100.9");
      [reflexivity | discriminate].
  - apply (proj1 (proj2 (client_id_resolution
                          (mkRequest (Some "10.0.0.1")
                             [("X-Forwarded-For", " 203.0.113.7 , 70.41.3.18")])))
             eq_refl " 203.0.113.7 , 70.41.3.18"); [reflexivity | discriminate].
  - apply (proj2 (proj2 (client_id_resolution (mkRequest (Some "10.0.0.1") []))));
      reflexivity.
Defined.

End RateLimiterSpec.

Module EmbeddingsSpec.
Import Embeddings.

(** *** Arithmetic of [range] and slices *)

Lemma ceil_bounds (n bs : Z) :
  0 < bs → 0 ≤ n →
  let c := (n + bs - 1) / bs in
  0 ≤ c ∧ n ≤ c * bs ∧ (c = 0 ∨ (c - 1) * bs < n).
Proof.
  intros Hbs Hn c.
  pose proof (Z.div_mod (n + bs - 1) bs ltac:(lia)) as Hdm.
  pose proof (Z.mod_pos_bound (n + bs - 1) bs Hbs) as Hm.
  fold c in Hdm. repeat split; nia.
Qed.

Lemma py_range_pos (n bs : Z) :
  0 < bs →
  py_range 0 n bs =
  Ok (map (fun k => 0 + Z.of_nat k * bs) (seq 0 (Z.to_nat ((n + bs - 1) / bs)))).
Proof.
  intros Hbs. unfold py_range.
  destruct (Z.eqb_spec bs 0); [lia|].
  destruct (Z.ltb_spec 0 bs); [|lia].
  by rewrite Z.sub_0_r.
Qed.

Lemma py_slice_chunk {A} (l : list A) (k : nat) (bs : Z) :
  0 < bs →
  py_slice l (0 + Z.of_nat k * bs) (0 + Z.of_nat k * bs + bs) =
  take (Z.to_nat bs) (drop (k * Z.to_nat bs) l).
Proof.
  intros Hbs. unfold py_slice, clamp. rewrite !Z.add_0_l.
  set (len := Z.of_nat (length l)).
  destruct (Z.ltb_spec (Z.of_nat k * bs) 0); [nia|].
  destruct (Z.ltb_spec (Z.of_nat k * bs + bs) 0); [nia|].
  destruct (Z_le_gt_dec len (Z.of_nat k * bs)) as [Hge|Hlt].
  - rewrite !Z.min_r by lia. rewrite Z.sub_diag. simpl.
    rewrite (drop_ge l (k * Z.to_nat bs)) by (subst len; nia).
    by rewrite take_nil.
  - rewrite (Z.min_l (Z.of_nat k * bs)) by lia.
    replace (Z.to_nat (Z.of_nat k * bs)) with (k * Z.to_nat bs)%nat by nia.
    destruct (Z_le_gt_dec (Z.of_nat k * bs + bs) len) as [Hfull|Hpart].
    + rewrite Z.min_l by lia. f_equal. lia.
    + rewrite Z.min_r by lia.
      rewrite !take_ge; [done | |]; rewrite length_drop; subst len; nia.
Qed.

Lemma concat_chunks {A} (l : list A) (b c : nat) :
  concat (map (fun k => take b (drop (k * b) l)) (seq 0 c)) = take (c * b) l.
Proof.
  induction c as [|c IH].
  - by rewrite take_0.
  - rewrite seq_S, map_app, concat_app, IH. simpl.
    rewrite app_nil_r, take_take_drop. f_equal. lia.
Qed.



Lemma lookup_map {A B} (f : A → B) (l : list A) (k : nat) :
  map f l !! k = f <$> (l !! k).
Proof.
  revert k. induction l as [|a l IH]; intros [|k]; simpl; done.
Qed.

(** Cutting [l] into [c] consecutive pieces of [b] elements, where [c] is
    the least number of pieces that covers [l]. *)
Lemma chunks_spec {A} (l : list A) (b c : nat) :
  (0 < b)%nat → (length l ≤ c * b)%nat →
  (c = 0 ∨ (c - 1) * b < length l)%nat →
  let chunks := map (fun k => take b (drop (k * b) l)) (seq 0 c) in
  length chunks = c ∧ concat chunks = l ∧
  (∀ k ch, chunks !! k = Some ch →
           (0 < length ch ≤ b)%nat ∧ (S k < c → length ch = b)%nat).
Proof.
  intros Hb Hub Hlb chunks. subst chunks. repeat split.
  - by rewrite length_map, length_seq.
  - rewrite concat_chunks. by apply take_ge.
  - rewrite lookup_map in H.
    destruct (seq 0 c !! k) as [j|] eqn:Hj; [|done].
    apply lookup_seq in Hj as [-> Hk]. injection H as <-.
    rewrite length_take, length_drop. nia.
  - rewrite lookup_map in H.
    destruct (seq 0 c !! k) as [j|] eqn:Hj; [|done].
    apply lookup_seq in Hj as [-> Hk]. injection H as <-.
    rewrite length_take. lia.
  - intros Hk'. rewrite lookup_map in H.
    destruct (seq 0 c !! k) as [j|] eqn:Hj; [|done].
    apply lookup_seq in Hj as [-> Hk]. injection H as <-.
    rewrite length_take, length_drop. nia.
Qed.

(** All indices of the range but the last are followed by a delay. *)
Lemma delays_count (n bs : Z) (c c' : nat) :
  0 < bs → n ≤ Z.of_nat c * bs →
  (c = 0%nat ∨ (Z.of_nat c - 1) * bs < n) →
  (c' ≤ c)%nat →
  length (List.filter (fun i => i + bs <? n)
            (map (fun k => 0 + Z.of_nat k * bs) (seq 0 c')))
  = Nat.min c' (c - 1).
Proof.
  intros Hbs Hub Hlb. induction c' as [|c' IH]; intros Hle; [done|].
  rewrite seq_S, map_app, List.filter_app, length_app, IH by lia.
  cbn [map List.filter Nat.add].
  destruct (Z.ltb_spec (0 + Z.of_nat c' * bs + bs) n) as [Hlt|Hge];
    cbn [length].
  - assert (Z.of_nat c' + 1 < Z.of_nat c); [|lia].
    apply Z.nle_gt. intros Hc.
    pose proof (Z.mul_le_mono_nonneg_r _ _ bs ltac:(lia) Hc). lia.
  - assert (Z.of_nat c - 1 < Z.of_nat c' + 1); [|lia].
    destruct Hlb as [->|Hlb]; [lia|].
    apply Z.nle_gt. intros Hc.
    pose proof (Z.mul_le_mono_nonneg_r _ _ bs ltac:(lia) Hc). lia.
Qed.

Section Loop.
Context {Emb World : Type}.
Variable create :
  string → list string → World → result (@ApiResponse Emb) * World.
Variable default_model : string.
Variables (texts : list string) (mdl : string) (batch_size : Z).

Local Abbreviation expected_events :=
  (Embeddings.expected_events texts mdl batch_size).


Lemma expected_events_succeeded idxs m inp :
  ECreate m inp false ∉ expected_events idxs.
Proof.
  induction idxs as [|i idxs IH]; simpl.
  - apply not_elem_of_nil.
  - rewrite not_elem_of_cons. split; [discriminate|].
    rewrite not_elem_of_app. split; [|done].
    destruct (_ <? _); [|apply not_elem_of_nil].
    rewrite not_elem_of_cons. split; [discriminate | apply not_elem_of_nil].
Qed.

Lemma batch_calls_expected idxs :
  batch_calls (expected_events idxs)
  = map (fun i => py_slice texts i (i + batch_size)) idxs.
Proof.
  induction idxs as [|i idxs IH]; [done|].
  simpl. unfold batch_calls in *. rewrite flat_map_app, IH.
  by destruct (_ <? _).
Qed.

Lemma sleeps_expected idxs :
  sleeps (expected_events idxs)
  = length (List.filter
              (fun i => i + batch_size <? Z.of_nat (length texts)) idxs).
Proof.
  induction idxs as [|i idxs IH]; [done|].
  unfold sleeps in *. simpl.
  destruct (i + batch_size <? Z.of_nat (length texts)); simpl;
    by rewrite IH.
Qed.

(** *** An upstream that answers every request, one embedding per
    input and in input order *)

Variable emb_of : string → string → Emb.
Hypothesis upstream_aligned :
  ∀ m inp w, ∃ resp w',
    create m inp w = (Ok resp, w') ∧ data resp = map (emb_of m) inp ∧
    is_ok (_calculate_cost m (default [] (api_usage resp))) = true.


End Loop.

(** *** The cost of an answer *)

Lemma float_overflow_pos : 0 < float_overflow.
Proof. reflexivity. Qed.

(** The cost can be computed whenever [total_tokens / 1000] is in the
    range of a float, and for every model without a price. *)
Lemma calculate_cost_ok (mdl : string) (u : list (string * Z)) :
  dict_mem mdl token_pricing = false ∨
  Z.abs (default 0 (dict_get "total_tokens" u)) < 1000 * float_overflow →
  _calculate_cost mdl u = Ok tt.
Proof.
  unfold _calculate_cost, true_div_check. intros [->|Hlt]; [done|].
  destruct (dict_mem mdl token_pricing); [|done]. cbn [negb].
  change (1000 =? 0) with false. change (Z.abs 1000) with 1000. cbv iota.
  destruct (Z.leb_spec (float_overflow * 1000)
              (Z.abs (default 0 (dict_get "total_tokens" u)))); [lia|done].
Qed.

Lemma usage_bounded_cost (mdl : string) (u : list (string * Z)) :
  usage_bounded u → _calculate_cost mdl u = Ok tt.
Proof.
  intros Hu. apply calculate_cost_ok. right.
  assert (Hlt : 2 ^ 63 < 1000 * float_overflow) by reflexivity.
  destruct (dict_get "total_tokens" u) as [v|] eqn:Hv.
  - change (default 0 (Some v)) with v.
    exact (Z.lt_trans _ _ _ (Hu _ _ Hv) Hlt).
  - change (Z.abs (default 0 None)) with 0.
    apply Z.mul_pos_pos; [done | apply float_overflow_pos].
Qed.

(** It raises exactly for a priced model whose [total_tokens / 1000] is
    out of that range, and then with an [OverflowError]. *)
Lemma calculate_cost_raises (mdl : string) (u : list (string * Z)) e :
  _calculate_cost mdl u = Raise e ↔
  dict_mem mdl token_pricing = true ∧
  1000 * float_overflow ≤ Z.abs (default 0 (dict_get "total_tokens" u)) ∧
  e = OverflowError "integer division result too large for a float".
Proof.
  unfold _calculate_cost, true_div_check.
  destruct (dict_mem mdl token_pricing); cbn [negb].
  2:{ split; [done | by intros [? _]]. }
  change (1000 =? 0) with false. change (Z.abs 1000) with 1000. cbv iota.
  destruct (Z.leb_spec (float_overflow * 1000)
              (Z.abs (default 0 (dict_get "total_tokens" u)))).
  - split; [intros [= <-]; repeat split; lia | by intros (_ & _ & ->)].
  - split; [done | intros (_ & ? & _); lia].
Qed.

(** The batches cut by the loop of [embed_texts], and its delays. *)
Lemma batches_spec (texts : list string) (batch_size : Z) :
  0 < batch_size →
  let n := Z.of_nat (length texts) in
  let idxs := map (fun k => 0 + Z.of_nat k * batch_size)
                (seq 0 (Z.to_nat ((n + batch_size - 1) / batch_size))) in
  let calls := map (fun i => py_slice texts i (i + batch_size)) idxs in
  Z.of_nat (length calls) = (n + batch_size - 1) / batch_size ∧
  concat calls = texts ∧
  (∀ k b, calls !! k = Some b →
          (0 < length b ≤ Z.to_nat batch_size)%nat ∧
          (S k < length calls → length b = Z.to_nat batch_size)%nat) ∧
  length (List.filter (fun i => i + batch_size <? n) idxs)
  = (length calls - 1)%nat.
Proof.
  intros Hbs n idxs calls.
  destruct (ceil_bounds n batch_size Hbs ltac:(lia)) as (Hc0 & Hub & Hlb).
  set (c := Z.to_nat ((n + batch_size - 1) / batch_size)) in *.
  assert (Hcalls : calls
                   = map (fun k => take (Z.to_nat batch_size)
                                     (drop (k * Z.to_nat batch_size) texts))
                       (seq 0 c)).
  { subst calls idxs. rewrite map_map. apply map_ext. intros k.
    by apply py_slice_chunk. }
  destruct (chunks_spec texts (Z.to_nat batch_size) c)
    as (Hlen & Hcat & Hsz); [lia | subst n c; nia | subst n c; nia |].
  rewrite <- Hcalls in Hlen, Hcat, Hsz.
  repeat split.
  - rewrite Hlen. subst c. lia.
  - done.
  - by apply (Hsz k b).
  - by apply (Hsz k b).
  - intros Hk. apply (Hsz k b); [done | lia].
  - rewrite Hlen. subst idxs.
    rewrite (delays_count n batch_size c c); [lia | done | subst c; nia | |lia].
    destruct Hlb as [Hz|Hlb]; [left; subst c; lia | right; subst c; nia].
Qed.

Lemma embed_texts_nonempty {Emb World : Type}
    (create : string → list string → World → result (@ApiResponse Emb) * World)
    (default_model : string) (texts : list string) (mdl : option string)
    (batch_size : Z) :
  texts ≠ [] → 0 < batch_size →
  embed_texts create default_model texts mdl batch_size
  = embed_loop create
      (map (fun k => 0 + Z.of_nat k * batch_size)
         (seq 0 (Z.to_nat ((Z.of_nat (length texts) + batch_size - 1)
                           / batch_size))))
      texts (str_or mdl default_model) batch_size [].
Proof.
  intros Hne Hbs. unfold embed_texts.
  destruct texts as [|t texts]; [done|].
  by rewrite py_range_pos.
Qed.

(** C10.  On an empty list of texts [embed_texts] returns the empty list
    and leaves the upstream and the log of effects untouched: no batch
    request and no delay, whatever the model and the batch size (zero and
    negative sizes included). *)
Theorem embed_texts_empty {Emb World : Type}
    (create : string → list string → World → result (@ApiResponse Emb) * World)
    (default_model : string) (mdl : option string) (batch_size : Z)
    (st : @St World) :
  embed_texts create default_model [] mdl batch_size st = (Ok [], st)
  ∧ batch_calls
      (snd (snd (embed_texts create default_model [] mdl batch_size st)))
    = batch_calls (snd st)
  ∧ sleeps (snd (snd (embed_texts create default_model [] mdl batch_size st)))
    = sleeps (snd st).
Proof. repeat split. Qed.




Example embed_texts_five :
  snd (snd (embed_texts echo_upstream "text-embedding-ada-002"
              ["a"; "b"; "c"; "d"; "e"] None 2 (0%nat, [])))
  = [ECreate "text-embedding-ada-002" ["a"; "b"] true; ESleep;
     ECreate "text-embedding-ada-002" ["c"; "d"] true; ESleep;
     ECreate "text-embedding-ada-002" ["e"] true].
Proof. reflexivity. Qed.

End EmbeddingsSpec.

(** ** Service factory *)

Module FactorySpec.
Import Factory.

Lemma str_or_idem x d : str_or (Some (str_or x d)) d = str_or x d.
Proof.
  unfold str_or. destruct x as [s|].
  - destruct (String.eqb_spec s ""); [|by destruct (String.eqb_spec s "")].
    by destruct (String.eqb d "").
  - by destruct (String.eqb d "").
Qed.


Lemma instances_set_alloc n cs s :
  _instances (set_alloc n cs s) = _instances s.
Proof. reflexivity. Qed.

(** Cache keys of different roles, or of different names, differ. *)
Lemma key_prefix_inj r r' n n' :
  String.append (key_prefix r) n = String.append (key_prefix r') n' →
  r = r' ∧ n = n'.
Proof.
  destruct r, r'; simpl; intros H; try discriminate; by injection H.
Qed.

Lemma key_prefix_ne r r' n n' :
  r ≠ r' → String.append (key_prefix r) n ≠ String.append (key_prefix r') n'.
Proof. intros Hne H. by apply key_prefix_inj in H as [? _]. Qed.

(** Membership and inclusion between explicit lists of roles. *)
Ltac roles :=
  repeat match goal with
         | |- _ ⊆ _ => let x := fresh "x" in intros x ?
         | |- _ ∉ _ => let H := fresh "H" in intros H
         end;
  rewrite ?elem_of_cons, ?elem_of_nil in *;
  intuition (subst; solve [auto | discriminate | congruence]).

Lemma grow_refl rs s : grow rs s s.
Proof. apply rtc_refl. Qed.

Lemma grow_trans rs s1 s2 s3 : grow rs s1 s2 → grow rs s2 s3 → grow rs s1 s3.
Proof. apply rtc_trans. Qed.

Lemma grow1_mono rs rs' s s' : rs ⊆ rs' → grow1 rs s s' → grow1 rs' s s'.
Proof. intros Hsub []; [apply grow_call | apply grow_cache]; auto. Qed.

Lemma grow_mono rs rs' s s' : rs ⊆ rs' → grow rs s s' → grow rs' s s'.
Proof.
  intros Hsub H. induction H as [|s1 s2 s3 H1 _ IH]; [apply rtc_refl|].
  eapply rtc_l; [by eapply grow1_mono | done].
Qed.

Lemma grow_registry rs s s' r : grow rs s s' → registry r s' = registry r s.
Proof.
  intros H. induction H as [|s1 s2 s3 H1 _ IH]; [done|].
  rewrite IH. destruct H1; by destruct r.
Qed.

Lemma grow_next_id rs s s' : grow rs s s' → (next_id s ≤ next_id s')%nat.
Proof.
  intros H. induction H as [|s1 s2 s3 H1 _ IH]; [done|].
  etrans; [|exact IH]. destruct H1 as [? ? ? []|]; simpl; lia.
Qed.

Lemma grow_instances rs s s' : grow rs s s' → _instances s ⊆ _instances s'.
Proof.
  intros H. induction H as [|s1 s2 s3 H1 _ IH]; [done|].
  etrans; [|exact IH]. destruct H1; simpl; [done|].
  by apply insert_subseteq.
Qed.

Lemma grow_cached rs s s' k inst :
  grow rs s s' → _instances s !! k = Some inst → _instances s' !! k = Some inst.
Proof.
  intros H Hk. pose proof (grow_instances _ _ _ H) as Hsub.
  by eapply lookup_weaken.
Qed.

(** Roles outside [rs] keep their cache slots and invocation counts. *)
Lemma grow_other_slot rs s s' r n :
  r ∉ rs → grow rs s s' →
  _instances s' !! String.append (key_prefix r) n
  = _instances s !! String.append (key_prefix r) n.
Proof.
  intros Hr H. induction H as [|s1 s2 s3 H1 _ IH]; [done|].
  rewrite IH. destruct H1 as [|s1 r1 nm inst Hin]; simpl; [done|].
  apply lookup_insert_ne. apply key_prefix_ne. by intros ->.
Qed.

Lemma grow_other_invocations rs s s' r n :
  r ∉ rs → grow rs s s' → invocations r n s' = invocations r n s.
Proof.
  intros Hr H. induction H as [|s1 s2 s3 H1 _ IH]; [done|].
  rewrite IH. destruct H1 as [s1 r1 nm b Hin|]; [|done].
  unfold invocations. simpl. rewrite List.filter_app, length_app. simpl.
  rewrite bool_decide_false; [simpl; lia|].
  intros [= -> _]. done.
Qed.

Lemma wf_initial : wf initial.
Proof. intros k inst H. unfold initial in H. simpl in H. by rewrite lookup_empty in H. Qed.

Lemma wf_grow rs s s' : grow rs s s' → wf s → wf s'.
Proof.
  intros H. induction H as [|s1 s2 s3 H1 _ IH]; [done|].
  intros Hwf. apply IH. clear IH.
  destruct H1 as [s1 r nm b Hin|s1 r nm inst Hin Hfree Hreg Hid].
  - intros k inst Hk. destruct (Hwf k inst Hk) as [(r' & n' & -> & Hmem) Hlt].
    split.
    + exists r', n'. split; [done|]. by destruct r'.
    + destruct b; simpl; lia.
  - intros k inst' Hk. simpl in Hk.
    destruct (decide (String.append (key_prefix r) nm = k)) as [<-|Hne].
    + rewrite lookup_insert_eq in Hk. injection Hk as <-.
      split; [|done]. exists r, nm. split; [done|]. by destruct r.
    + rewrite lookup_insert_ne in Hk by done.
      destruct (Hwf k inst' Hk) as [(r' & n' & -> & Hmem) Hlt].
      split; [|done]. exists r', n'. split; [done|]. by destruct r'.
Qed.

Lemma wf_register r name c s : wf s → wf (register r name c s).
Proof.
  intros Hwf k inst Hk.
  assert (Hk' : _instances s !! k = Some inst) by (by destruct r).
  destruct (Hwf k inst Hk') as [(r' & n' & -> & Hmem) Hlt].
  split; [|by destruct r].
  exists r', n'. split; [done|].
  destruct r, r'; simpl; try done;
    rewrite dict_mem_set; by destruct (decide (name = n')).
Qed.

Lemma wf_clear s : wf s → wf (clear_instances s).
Proof.
  intros _ k inst Hk. unfold clear_instances in Hk. simpl in Hk.
  by rewrite lookup_empty in Hk.
Qed.


Section WithSettings.
Variable settings : Settings.

Local Abbreviation effective_name := (Factory.effective_name settings).
Local Abbreviation cache_key := (Factory.cache_key settings).
Local Abbreviation create := (Factory.create settings).
Local Abbreviation get := (Factory.get settings).
Local Abbreviation verdict := (Factory.verdict settings).
Local Abbreviation buildable := (Factory.buildable settings).
Local Abbreviation cached := (Factory.cached settings).
Local Abbreviation available := (Factory.available settings).
Local Abbreviation obtainable := (Factory.obtainable settings).
Local Abbreviation constructible := (Factory.constructible settings).

Lemma effective_name_idem r name :
  effective_name r (Some (effective_name r name)) = effective_name r name.
Proof. destruct r; simpl; try done; apply str_or_idem. Qed.

Lemma cache_key_idem r name :
  cache_key r (Some (effective_name r name)) = cache_key r name.
Proof. unfold Factory.cache_key. by rewrite effective_name_idem. Qed.

Lemma create_unregistered r name d1 d2 kw s :
  dict_get (effective_name r name) (registry r s) = None →
  create r name d1 d2 kw s
  = (Raise (unknown_error r (effective_name r name)
              (dict_keys (registry r s))), s).
Proof.
  intros H. destruct r; simpl in *.
  - unfold create_llm_provider. by rewrite H.
  - unfold create_embeddings_service. by rewrite H.
  - unfold create_vector_store. by rewrite H.
  - unfold create_retrieval_strategy, dict_mem. by rewrite H.
  - unfold create_chat_service, dict_mem. by rewrite H.
Qed.

Lemma get_cached r name s inst :
  _instances s !! cache_key r name = Some inst → get r name s = (Ok inst, s).
Proof.
  intros H. destruct r; simpl;
    [unfold get_llm_provider | unfold get_embeddings_service
    | unfold get_vector_store | unfold get_retrieval_strategy
    | unfold get_chat_service];
    unfold Factory.cache_key in H; simpl in H; by rewrite H.
Qed.

Lemma get_uncached r name s :
  _instances s !! cache_key r name = None →
  get r name s
  = match create r (Some (effective_name r name)) None None [] s with
    | (Ok inst, s') =>
        (Ok inst,
         set_instances (<[cache_key r name := inst]> (_instances s')) s')
    | (Raise e, s') => (Raise e, s')
    end.
Proof.
  intros H. destruct r; simpl;
    [unfold get_llm_provider | unfold get_embeddings_service
    | unfold get_vector_store | unfold get_retrieval_strategy
    | unfold get_chat_service];
    unfold Factory.cache_key in H; simpl in H; by rewrite H.
Qed.

Lemma instantiate_post r n c kw s :
  ∃ b : bool,
    snd (instantiate r n c kw s)
    = set_alloc (if b then S (next_id s) else next_id s) (calls s ++ [(r, n)]) s ∧
    is_ok (fst (instantiate r n c kw s)) = b ∧
    ∀ inst, fst (instantiate r n c kw s) = Ok inst →
            obj_id inst = next_id s ∧ obj_class inst = c ∧ obj_kwargs inst = kw.
Proof.
  unfold instantiate. destruct (cls_init c kw).
  - exists false. split; [done|]. split; [done|]. intros ? [=].
  - exists true. split; [done|]. split; [done|]. by intros ? [= <-].
Qed.

Lemma create_post_leaf r name kw d1 d2 s :
  deps r = [] →
  create_post r (effective_name r name) s
    (fst (create r name d1 d2 kw s)) (snd (create r name d1 d2 kw s)).
Proof.
  intros Hleaf. exists s. split; [apply grow_refl|].
  destruct (dict_get (effective_name r name) (registry r s)) as [c|] eqn:Hreg.
  - right.
    assert (Hc : create r name d1 d2 kw s
                 = instantiate r (effective_name r name) c kw s).
    { destruct r; try discriminate; simpl in *;
        [unfold create_llm_provider | unfold create_embeddings_service
        | unfold create_vector_store]; by rewrite Hreg. }
    rewrite Hc.
    destruct (instantiate_post r (effective_name r name) c kw s)
      as (b & Hs & Hb & Hinst).
    exists c, b. repeat split; try done; by apply Hinst.
  - left. by rewrite create_unregistered.
Qed.

Lemma create_post_grow r n s res s' :
  create_post r n s res s' → grow (r :: deps r) s s'.
Proof.
  intros (s2 & Hg & [[? ->]|(c & b & ? & -> & ?)]).
  - eapply grow_mono; [|done]. roles.
  - eapply grow_trans; [eapply grow_mono; [|done]; roles|].
    apply rtc_once, grow_call. roles.
Qed.

Lemma deps_irrefl r : r ∉ deps r.
Proof. destruct r; simpl; roles. Qed.

(** A [get] on a free slot, given what its [create] does. *)
Lemma get_grow_from_create r name s :
  (∀ s, create_post r (effective_name r name) s
          (fst (create r (Some (effective_name r name)) None None [] s))
          (snd (create r (Some (effective_name r name)) None None [] s))) →
  grow (r :: deps r) s (snd (get r name s)).
Proof.
  intros Hcreate.
  destruct (_instances s !! cache_key r name) as [inst|] eqn:Hslot.
  - rewrite (get_cached _ _ _ _ Hslot). apply grow_refl.
  - rewrite (get_uncached _ _ _ Hslot).
    specialize (Hcreate s).
    pose proof (create_post_grow _ _ _ _ _ Hcreate) as Hg.
    destruct (create r (Some (effective_name r name)) None None [] s)
      as [[inst|e] s1]; simpl in *; [|done].
    eapply grow_trans; [exact Hg|].
    destruct Hcreate as (s2 & Hg2 & [[? ?]|(c & b & Hreg & -> & Hb & Hinst)]);
      [done|].
    destruct (Hinst inst eq_refl) as [Hid _]. simpl in Hb. subst b.
    apply rtc_once. unfold Factory.cache_key.
    apply grow_cache.
    + roles.
    + simpl. rewrite (grow_other_slot _ _ _ _ _ (deps_irrefl r) Hg2). done.
    + unfold dict_mem.
      replace (registry r (set_alloc (S (next_id s2)) (calls s2 ++ [(r, effective_name r name)]) s2))
        with (registry r s2) by (by destruct r).
      rewrite (grow_registry _ _ _ r Hg2). by rewrite Hreg.
    + simpl. lia.
Qed.


Lemma get_grow_leaf r name s :
  deps r = [] → grow [r] s (snd (get r name s)).
Proof.
  intros Hleaf. pose proof (get_grow_from_create r name s) as H.
  rewrite Hleaf in H. apply H. intros s0.
  pose proof (create_post_leaf r (Some (effective_name r name)) [] None None
                s0 Hleaf) as Hc.
  by rewrite effective_name_idem in Hc.
Qed.

(** Resolving one dependency: the caller's object, or the singleton. *)
Lemma dep_grow rs r (d : option Instance) s :
  (∀ s, grow rs s (snd (get r None s))) →
  grow rs s (snd ((match d with
                   | None => get r None
                   | Some v => ret v
                   end) s)).
Proof. intros H. destruct d; [apply grow_refl | apply H]. Qed.

Lemma create_post_build r n c kw s0 s :
  grow (deps r) s0 s →
  dict_get n (registry r s0) = Some c →
  create_post r n s0 (fst (instantiate r n c kw s))
    (snd (instantiate r n c kw s)).
Proof.
  intros Hg Hreg. exists s. split; [done|]. right.
  destruct (instantiate_post r n c kw s) as (b & Hs & Hb & Hinst).
  exists c, b. repeat split; try done; by apply Hinst.
Qed.

Lemma create_post_retrieval name d1 d2 kw s :
  create_post Retrieval (effective_name Retrieval name) s
    (fst (create Retrieval name d1 d2 kw s))
    (snd (create Retrieval name d1 d2 kw s)).
Proof.
  destruct (create Retrieval name d1 d2 kw s) as [res s'] eqn:H.
  cbn [fst snd]. simpl in *. set (n := default "similarity" name) in *.
  unfold create_retrieval_strategy in H.
  destruct (dict_mem n (_retrieval_strategies s)) eqn:Hmem; simpl in H.
  2:{ injection H as <- <-. exists s. split; [apply grow_refl | by left]. }
  unfold bind in H.
  assert (Hg1 : grow [VectorStore; Embeddings] s
                  (snd ((match d1 with
                         | None => get_vector_store settings None
                         | Some v => ret v
                         end) s))).
  { apply (dep_grow _ VectorStore). intros s0.
    eapply grow_mono; [|by apply (get_grow_leaf VectorStore None s0)].
    roles. }
  destruct ((match d1 with
             | None => get_vector_store settings None
             | Some v => ret v
             end) s) as [[v|e] s1]; simpl in Hg1.
  2:{ injection H as <- <-. exists s1. split; [done | by left]. }
  assert (Hg2 : grow [VectorStore; Embeddings] s1
                  (snd ((match d2 with
                         | None => get_embeddings_service settings None
                         | Some v => ret v
                         end) s1))).
  { apply (dep_grow _ Embeddings). intros s0.
    eapply grow_mono; [|by apply (get_grow_leaf Embeddings None s0)].
    roles. }
  destruct ((match d2 with
             | None => get_embeddings_service settings None
             | Some v => ret v
             end) s1) as [[em|e] s2]; simpl in Hg2.
  2:{ injection H as <- <-. exists s2.
      split; [by eapply grow_trans | by left]. }
  pose proof (grow_trans _ _ _ _ Hg1 Hg2) as Hg.
  pose proof (grow_registry _ _ _ Retrieval Hg) as Hreg. simpl in Hreg.
  rewrite Hreg in H. unfold dict_mem in Hmem.
  destruct (dict_get n (_retrieval_strategies s)) as [c|] eqn:Hc; [|done].
  pose proof (create_post_build Retrieval n c
                (("vector_store", Ref (obj_id v))
                 :: ("embeddings_service", Ref (obj_id em)) :: kw)
                s s2 Hg Hc) as Hpost.
  by rewrite H in Hpost.
Qed.

Lemma get_grow_retrieval name s :
  grow [Retrieval; VectorStore; Embeddings] s (snd (get Retrieval name s)).
Proof.
  apply (get_grow_from_create Retrieval). intros s0.
  exact (create_post_retrieval (Some (effective_name Retrieval name))
           None None [] s0).
Qed.

Lemma create_post_chat name d1 d2 kw s :
  create_post Chat (effective_name Chat name) s
    (fst (create Chat name d1 d2 kw s))
    (snd (create Chat name d1 d2 kw s)).
Proof.
  destruct (create Chat name d1 d2 kw s) as [res s'] eqn:H.
  cbn [fst snd]. simpl in *. set (n := default "default" name) in *.
  unfold create_chat_service in H.
  destruct (dict_mem n (_chat_services s)) eqn:Hmem; simpl in H.
  2:{ injection H as <- <-. exists s. split; [apply grow_refl | by left]. }
  unfold bind in H.
  assert (Hg1 : grow [LLM; VectorStore; Embeddings; Retrieval] s
                  (snd ((match d1 with
                         | None => get_llm_provider settings None
                         | Some v => ret v
                         end) s))).
  { apply (dep_grow _ LLM). intros s0.
    eapply grow_mono; [|by apply (get_grow_leaf LLM None s0)].
    roles. }
  destruct ((match d1 with
             | None => get_llm_provider settings None
             | Some v => ret v
             end) s) as [[v|e] s1]; simpl in Hg1.
  2:{ injection H as <- <-. exists s1. split; [done | by left]. }
  assert (Hg2 : grow [LLM; VectorStore; Embeddings; Retrieval] s1
                  (snd ((match d2 with
                         | None => get_retrieval_strategy settings "similarity"
                         | Some v => ret v
                         end) s1))).
  { destruct d2; [apply grow_refl|].
    eapply grow_mono; [|apply (get_grow_retrieval (Some "similarity") s1)].
    roles. }
  destruct ((match d2 with
             | None => get_retrieval_strategy settings "similarity"
             | Some v => ret v
             end) s1) as [[rs|e] s2]; simpl in Hg2.
  2:{ injection H as <- <-. exists s2.
      split; [by eapply grow_trans | by left]. }
  pose proof (grow_trans _ _ _ _ Hg1 Hg2) as Hg.
  pose proof (grow_registry _ _ _ Chat Hg) as Hreg. simpl in Hreg.
  rewrite Hreg in H. unfold dict_mem in Hmem.
  destruct (dict_get n (_chat_services s)) as [c|] eqn:Hc; [|done].
  pose proof (create_post_build Chat n c
                (("llm_provider", Ref (obj_id v))
                 :: ("retrieval_strategy", Ref (obj_id rs)) :: kw)
                s s2 Hg Hc) as Hpost.
  by rewrite H in Hpost.
Qed.

(** [create], for every role. *)
Lemma create_spec r name d1 d2 kw s :
  create_post r (effective_name r name) s
    (fst (create r name d1 d2 kw s)) (snd (create r name d1 d2 kw s)).
Proof.
  destruct r; [by apply create_post_leaf .. | apply create_post_retrieval
              | apply create_post_chat].
Qed.

Lemma create_grow r name d1 d2 kw s :
  grow (r :: deps r) s (snd (create r name d1 d2 kw s)).
Proof. eapply create_post_grow, create_spec. Qed.

(** [get], for every role. *)
Lemma get_grow r name s : grow (r :: deps r) s (snd (get r name s)).
Proof.
  apply get_grow_from_create. intros s0.
  pose proof (create_spec r (Some (effective_name r name)) None None [] s0) as H.
  by rewrite effective_name_idem in H.
Qed.


Lemma try_validate_state probe (m : M Instance) s :
  snd (try_validate probe m s) = snd (m s).
Proof.
  unfold try_validate. destruct (m s) as [[inst|e] s']; [|done].
  by destruct (probe inst).
Qed.

Lemma validate_grow probe s :
  grow [LLM; Embeddings; VectorStore] s
    (snd (validate_all_connections settings probe s)).
Proof.
  unfold validate_all_connections.
  pose proof (try_validate_state probe (get_llm_provider settings None) s) as H1.
  destruct (try_validate probe (get_llm_provider settings None) s) as [b1 s1].
  pose proof (try_validate_state probe (get_embeddings_service settings None) s1)
    as H2.
  destruct (try_validate probe (get_embeddings_service settings None) s1)
    as [b2 s2].
  pose proof (try_validate_state probe (get_vector_store settings None) s2)
    as H3.
  destruct (try_validate probe (get_vector_store settings None) s2) as [b3 s3].
  simpl in *. subst s1 s2 s3.
  eapply grow_trans; [|eapply grow_trans].
  - eapply grow_mono; [|apply (get_grow_leaf LLM None s)]; [roles | done].
  - eapply grow_mono; [|apply (get_grow_leaf Embeddings None)]; [roles | done].
  - eapply grow_mono; [|apply (get_grow_leaf VectorStore None)]; [roles | done].
Qed.

Lemma wf_run_op s o : wf s → wf (run_op settings s o).
Proof.
  intros Hwf. destruct o as [r name c|r name d1 d2 kw|r name| |probe]; simpl.
  - by apply wf_register.
  - eapply wf_grow; [apply create_grow | done].
  - eapply wf_grow; [apply get_grow | done].
  - by apply wf_clear.
  - eapply wf_grow; [apply validate_grow | done].
Qed.

Lemma wf_run ops s : wf s → wf (run settings ops s).
Proof.
  revert s. induction ops as [|o ops IH]; intros s Hwf; [done|].
  simpl. by apply IH, wf_run_op.
Qed.

Lemma reachable_wf s : reachable settings s → wf s.
Proof. intros [ops ->]. apply wf_run, wf_initial. Qed.

Lemma reachable_run ops s :
  reachable settings s → reachable settings (run settings ops s).
Proof.
  intros [ops0 ->]. exists (ops0 ++ ops). unfold run. by rewrite fold_left_app.
Qed.

(** Every call except [clear_instances] leaves cached objects in place. *)
Lemma run_op_cached s o k inst :
  is_clear o = false →
  _instances s !! k = Some inst →
  _instances (run_op settings s o) !! k = Some inst.
Proof.
  intros Hclear Hk.
  destruct o as [r name c|r name d1 d2 kw|r name| |probe]; simpl;
    try discriminate.
  - by destruct r.
  - eapply grow_cached; [apply create_grow | done].
  - eapply grow_cached; [apply get_grow | done].
  - eapply grow_cached; [apply validate_grow | done].
Qed.

Lemma run_cached ops s k inst :
  forallb (fun o => negb (is_clear o)) ops = true →
  _instances s !! k = Some inst →
  _instances (run settings ops s) !! k = Some inst.
Proof.
  revert s. induction ops as [|o ops IH]; intros s Hops Hk; [done|].
  simpl in *. apply andb_prop in Hops as [Ho Hops].
  apply IH; [done|]. apply run_op_cached; [|done].
  by destruct (is_clear o).
Qed.

Lemma invocations_call r n m s :
  invocations r n (set_alloc m (calls s ++ [(r, n)]) s)
  = S (invocations r n s).
Proof.
  unfold invocations. simpl. rewrite List.filter_app, length_app. simpl.
  rewrite bool_decide_true by done. simpl. lia.
Qed.

(** A [get] on a free slot that returns has invoked the class of its key
    exactly once and returns an object allocated during the call. *)
Lemma get_uncached_ok r name s inst s' :
  _instances s !! cache_key r name = None →
  get r name s = (Ok inst, s') →
  _instances s' !! cache_key r name = Some inst ∧
  invocations r (effective_name r name) s'
  = S (invocations r (effective_name r name) s) ∧
  (next_id s ≤ obj_id inst < next_id s')%nat ∧
  dict_get (effective_name r name) (registry r s) = Some (obj_class inst).
Proof.
  intros Hslot Hget. rewrite (get_uncached _ _ _ Hslot) in Hget.
  pose proof (create_spec r (Some (effective_name r name)) None None [] s)
    as Hpost.
  rewrite effective_name_idem in Hpost.
  destruct (create r (Some (effective_name r name)) None None [] s)
    as [[inst0|e] s1]; [|done].
  injection Hget as -> <-. simpl in Hpost.
  destruct Hpost as (s2 & Hg & [[? ?]|(c & b & Hreg & -> & Hb & Hinst)]);
    [done|].
  destruct (Hinst inst eq_refl) as [Hid Hcls]. simpl in Hb. subst b.
  split; [|split; [|split]].
  - simpl. apply lookup_insert_eq.
  - change (invocations r (effective_name r name)
              (set_alloc (S (next_id s2))
                 (calls s2 ++ [(r, effective_name r name)]) s2)
            = S (invocations r (effective_name r name) s)).
    rewrite invocations_call.
    by rewrite (grow_other_invocations _ _ _ _ _ (deps_irrefl r) Hg).
  - simpl. pose proof (grow_next_id _ _ _ Hg). lia.
  - by rewrite Hcls.
Qed.


Lemma unregistered_uncached r name s :
  wf s →
  effective_name r name ∉ dict_keys (registry r s) →
  _instances s !! cache_key r name = None.
Proof.
  intros Hwf Hreg.
  destruct (_instances s !! cache_key r name) as [inst|] eqn:Hslot; [|done].
  destruct (Hwf _ _ Hslot) as [(r' & n' & Hkey & Hmem) _].
  apply key_prefix_inj in Hkey as [<- <-].
  by apply dict_mem_true in Hmem.
Qed.

(** C4.  In every state the factory can reach, for every role and every
    name that (after the fall-back to the configured default for an
    omitted or empty name) has no registered class, both [create] and
    [get] raise the [ValueError] whose message interpolates the requested
    name and the list of the names registered for that role, and leave
    the state as it was: no class is invoked, no object is allocated,
    nothing is cached.  A name that is given and not empty is looked up
    as it is. *)
Theorem unknown_provider r name d1 d2 kw s :
  reachable settings s →
  effective_name r name ∉ dict_keys (registry r s) →
  let e := unknown_error r (effective_name r name) (dict_keys (registry r s)) in
  create r name d1 d2 kw s = (Raise e, s) ∧
  get r name s = (Raise e, s) ∧
  (∃ msg, e = ValueError msg ∧
          FStr (effective_name r name) ∈ msg ∧
          FList (dict_keys (registry r s)) ∈ msg) ∧
  (∀ n, name = Some n → n ≠ "" → effective_name r name = n).
Proof.
  intros Hreach Hreg e.
  assert (Hnone : dict_get (effective_name r name) (registry r s) = None).
  { destruct (dict_get _ _) eqn:Hget; [|done].
    exfalso. apply Hreg, dict_get_keys. by rewrite Hget. }
  split; [by apply create_unregistered|]. split.
  - rewrite get_uncached
      by (apply unregistered_uncached; [by apply reachable_wf | done]).
    rewrite create_unregistered by (by rewrite effective_name_idem).
    by rewrite effective_name_idem.
  - split.
    + subst e. destruct r; simpl; eexists; (split; [reflexivity|]);
        split; roles.
    + intros n -> Hn. destruct r; simpl; try done;
        unfold str_or; by destruct (String.eqb_spec n "").
Qed.

(** A leaf [create] for a registered name is one invocation of the
    registered class. *)
Lemma create_leaf_registered r name s c :
  deps r = [] →
  dict_get (effective_name r name) (registry r s) = Some c →
  create r (Some (effective_name r name)) None None [] s
  = instantiate r (effective_name r name) c [] s.
Proof.
  intros Hleaf Hreg.
  destruct r; try discriminate;
    unfold Factory.create, create_llm_provider, create_embeddings_service,
      create_vector_store;
    cbn [Factory.effective_name Factory.registry] in *;
    by rewrite str_or_idem, Hreg.
Qed.

(** A leaf [get] on a free slot of a registered class that constructs. *)
Lemma get_leaf_fresh r name s c :
  deps r = [] →
  _instances s !! cache_key r name = None →
  dict_get (effective_name r name) (registry r s) = Some c →
  cls_init c [] = None →
  get r name s
  = (Ok (mkInstance (next_id s) c []),
     set_instances
       (<[cache_key r name := mkInstance (next_id s) c []]> (_instances s))
       (set_alloc (S (next_id s))
          (calls s ++ [(r, effective_name r name)]) s)).
Proof.
  intros Hleaf Hslot Hreg Hinit. rewrite (get_uncached _ _ _ Hslot).
  rewrite (create_leaf_registered r name s c) by done.
  unfold instantiate. by rewrite Hinit.
Qed.

(** A leaf [get] for a registered class that constructs returns. *)
Lemma get_leaf_returns r name s c :
  deps r = [] →
  dict_get (effective_name r name) (registry r s) = Some c →
  cls_init c [] = None →
  ∃ inst s1, get r name s = (Ok inst, s1).
Proof.
  intros Hleaf Hreg Hinit.
  destruct (_instances s !! cache_key r name) as [inst|] eqn:Hslot.
  - exists inst, s. by apply get_cached.
  - rewrite (get_leaf_fresh r name s c) by done. by eexists _, _.
Qed.

(** *** Every [get] whose classes construct returns *)

Lemma buildable_grow rs r n s s' :
  grow rs s s' → buildable r n s → buildable r n s'.
Proof.
  intros Hg (c & Hc & Hk). exists c. by rewrite (grow_registry _ _ _ r Hg).
Qed.

Lemma cached_grow rs r n s s' : grow rs s s' → cached r n s → cached r n s'.
Proof. intros Hg [inst H]. exists inst. by eapply grow_cached. Qed.

Lemma available_grow rs r n s s' :
  grow rs s s' → available r n s → available r n s'.
Proof.
  intros Hg [H|H]; [left; by eapply cached_grow | right; by eapply buildable_grow].
Qed.

Lemma buildable_effective r name s :
  buildable r name s → buildable r (Some (effective_name r name)) s.
Proof.
  intros (c & Hc & Hk). exists c. by rewrite effective_name_idem.
Qed.

(** A default leaf singleton that is at hand is returned. *)
Lemma available_get r s :
  deps r = [] → available r None s →
  ∃ inst s1, get r None s = (Ok inst, s1) ∧ grow [r] s s1.
Proof.
  intros Hleaf Hav.
  assert (∃ inst s1, get r None s = (Ok inst, s1)) as (inst & s1 & Hget).
  { destruct Hav as [[inst H]|(c & Hc & Hk)].
    - exists inst, s. by apply get_cached.
    - apply (get_leaf_returns r None s c); [done | done |].
      by destruct r. }
  exists inst, s1. split; [done|].
  pose proof (get_grow_leaf r None s Hleaf) as Hg. by rewrite Hget in Hg.
Qed.

Lemma create_retrieval_returns name kw s :
  buildable Retrieval name s →
  available VectorStore None s → available Embeddings None s →
  ∃ inst s1, create Retrieval name None None kw s = (Ok inst, s1).
Proof.
  intros (c & Hc & Hk) Hv He.
  cbn [Factory.effective_name Factory.registry] in Hc.
  unfold Factory.create, create_retrieval_strategy, dict_mem.
  rewrite Hc. cbn [negb]. unfold bind.
  destruct (available_get VectorStore s eq_refl Hv) as (v & s1 & Hgv & Hg1).
  change (get_vector_store settings None s) with (get VectorStore None s).
  rewrite Hgv.
  destruct (available_get Embeddings s1 eq_refl
              (available_grow _ _ _ _ _ Hg1 He)) as (em & s2 & Hge & Hg2).
  change (get_embeddings_service settings None s1)
    with (get Embeddings None s1).
  rewrite Hge.
  rewrite (grow_registry _ _ _ Retrieval Hg2
           : _retrieval_strategies s2 = _retrieval_strategies s1),
    (grow_registry _ _ _ Retrieval Hg1
     : _retrieval_strategies s1 = _retrieval_strategies s), Hc.
  unfold instantiate. rewrite (Hk : ∀ kw, cls_init c kw = None).
  by eexists _, _.
Qed.

Lemma get_retrieval_returns name s :
  obtainable Retrieval name s →
  ∃ inst s1, get Retrieval name s = (Ok inst, s1).
Proof.
  intros Hob.
  destruct (_instances s !! cache_key Retrieval name) as [inst|] eqn:Hslot.
  { exists inst, s. by apply get_cached. }
  destruct Hob as [[inst H]|(Hb & Hv & He)].
  { unfold Factory.cached in H. by rewrite Hslot in H. }
  rewrite (get_uncached _ _ _ Hslot).
  destruct (create_retrieval_returns (Some (effective_name Retrieval name))
              [] s (buildable_effective _ _ _ Hb) Hv He)
    as (inst & s1 & ->).
  by eexists _, _.
Qed.

Lemma create_chat_returns name kw s :
  buildable Chat name s →
  available LLM None s →
  obtainable Retrieval (Some "similarity") s →
  ∃ inst s1, create Chat name None None kw s = (Ok inst, s1).
Proof.
  intros (c & Hc & Hk) Hl Hr.
  cbn [Factory.effective_name Factory.registry] in Hc.
  unfold Factory.create, create_chat_service, dict_mem.
  rewrite Hc. cbn [negb]. unfold bind.
  destruct (available_get LLM s eq_refl Hl) as (l & s1 & Hgl & Hg1).
  change (get_llm_provider settings None s) with (get LLM None s).
  rewrite Hgl.
  assert (Hr1 : obtainable Retrieval (Some "similarity") s1).
  { destruct Hr as [H|(Hb & Hv & He)].
    - left. by eapply cached_grow.
    - right. split; [by eapply buildable_grow|].
      split; by eapply available_grow. }
  destruct (get_retrieval_returns (Some "similarity") s1 Hr1)
    as (strat & s2 & Hgr).
  pose proof (get_grow_retrieval (Some "similarity") s1) as Hg2.
  rewrite Hgr in Hg2. cbn [snd] in Hg2.
  change (get_retrieval_strategy settings "similarity" s1)
    with (get Retrieval (Some "similarity") s1).
  rewrite Hgr.
  rewrite (grow_registry _ _ _ Chat Hg2
           : _chat_services s2 = _chat_services s1),
    (grow_registry _ _ _ Chat Hg1 : _chat_services s1 = _chat_services s),
    Hc.
  unfold instantiate. rewrite (Hk : ∀ kw, cls_init c kw = None).
  by eexists _, _.
Qed.

(** A [get] returns whenever what it needs is there, for every role. *)
Lemma get_obtainable r name s :
  obtainable r name s → ∃ inst s1, get r name s = (Ok inst, s1).
Proof.
  intros Hob.
  destruct (_instances s !! cache_key r name) as [inst|] eqn:Hslot.
  { exists inst, s. by apply get_cached. }
  destruct r;
    try (destruct Hob as [[inst H]|[(c & Hc & Hk) _]];
         [unfold Factory.cached in H; by rewrite Hslot in H
         |by apply (get_leaf_returns _ name s c)]).
  - by apply get_retrieval_returns.
  - destruct Hob as [[inst H]|(Hb & Hl & Hr)].
    { unfold Factory.cached in H. by rewrite Hslot in H. }
    rewrite (get_uncached _ _ _ Hslot).
    destruct (create_chat_returns (Some (effective_name Chat name)) [] s
                (buildable_effective _ _ _ Hb) Hl) as (inst & s1 & ->).
    + destruct Hr as [H|H]; [by left | by right].
    + by eexists _, _.
Qed.

Lemma constructible_obtainable r name s s' :
  (∀ r', registry r' s' = registry r' s) →
  constructible r name s → obtainable r name s'.
Proof.
  intros Hreg.
  assert (Hb : ∀ r' n, buildable r' n s → buildable r' n s').
  { intros r' n (c & Hc & Hk). exists c. by rewrite Hreg. }
  intros [H Hdeps]. right. split; [by apply Hb|].
  destruct r; try done.
  - destruct Hdeps as [Hv He]. split; right; by apply Hb.
  - destruct Hdeps as (Hl & Hr & Hv & He).
    split; [right; by apply Hb|]. right.
    split; [by apply Hb|]. split; right; by apply Hb.
Qed.

(** Repeating a [get] that has returned changes nothing. *)
Lemma run_repeated_get r name s inst k :
  get r name s = (Ok inst, s) →
  run settings (replicate k (OpGet r name)) s = s.
Proof.
  intros Hget. induction k as [|k IH]; [done|].
  cbn [replicate]. unfold run in *. cbn [fold_left run_op].
  by rewrite Hget.
Qed.

(** C1.  For every role and name, a [get] returns an object whenever
    what it needs is there: the singleton is cached, or the class
    registered for the name constructs and each default singleton it is
    built over is cached or has a registered class that constructs.  And
    if a [get] returns an object, then
    - the object is stored under the cache key of that role and name;
    - during that call the class registered for the key was invoked at
      most once;
    - if the slot of the key held an object before the call, that object
      is what the call returns, and the call changes nothing;
    - if the slot was empty, the object is an instance of the class
      registered for the key, that class was invoked exactly once, and
      the object was allocated during the call, so (in a state the
      factory can reach) it is none of the objects cached before;
    - a [get] for the same key immediately afterwards returns the same
      object and changes nothing, so any number of repeated gets, the
      first included, leaves the factory as the first one left it and the
      class is not invoked again;
    - after any further factory calls other than [clear_instances]
      (registrations, creates, gets of this or other keys, readiness
      checks), a [get] for the key still returns that same object and
      changes nothing. *)
Theorem get_singleton r name s :
  (obtainable r name s → ∃ inst s1, get r name s = (Ok inst, s1)) ∧
  ∀ inst s1,
    get r name s = (Ok inst, s1) →
    _instances s1 !! cache_key r name = Some inst ∧
    (invocations r (effective_name r name) s1
     ≤ S (invocations r (effective_name r name) s))%nat ∧
    match _instances s !! cache_key r name with
    | Some inst0 => inst = inst0 ∧ s1 = s
    | None =>
        dict_get (effective_name r name) (registry r s)
        = Some (obj_class inst) ∧
        invocations r (effective_name r name) s1
        = S (invocations r (effective_name r name) s) ∧
        (next_id s ≤ obj_id inst < next_id s1)%nat ∧
        (reachable settings s →
         ∀ k inst0, _instances s !! k = Some inst0 →
                    obj_id inst ≠ obj_id inst0)
    end ∧
    get r name s1 = (Ok inst, s1) ∧
    (∀ k, run settings (replicate (S k) (OpGet r name)) s = s1) ∧
    ∀ ops, forallb (fun o => negb (is_clear o)) ops = true →
           get r name (run settings ops s1) = (Ok inst, run settings ops s1).
Proof.
  split; [apply get_obtainable|].
  intros inst s1 Hget.
  assert (Hfirst :
    _instances s1 !! cache_key r name = Some inst ∧
    (invocations r (effective_name r name) s1
     ≤ S (invocations r (effective_name r name) s))%nat ∧
    match _instances s !! cache_key r name with
    | Some inst0 => inst = inst0 ∧ s1 = s
    | None =>
        dict_get (effective_name r name) (registry r s)
        = Some (obj_class inst) ∧
        invocations r (effective_name r name) s1
        = S (invocations r (effective_name r name) s) ∧
        (next_id s ≤ obj_id inst < next_id s1)%nat ∧
        (reachable settings s →
         ∀ k inst0, _instances s !! k = Some inst0 →
                    obj_id inst ≠ obj_id inst0)
    end).
  { destruct (_instances s !! cache_key r name) as [inst0|] eqn:Hslot.
    - rewrite (get_cached _ _ _ _ Hslot) in Hget. injection Hget as <- <-.
      split; [done|]. split; [lia | done].
    - destruct (get_uncached_ok _ _ _ _ _ Hslot Hget) as (H1 & H2 & H3 & H4).
      split; [done|]. split; [lia|].
      split; [done|]. split; [done|]. split; [done|].
      intros Hreach k inst0 Hk.
      destruct (reachable_wf _ Hreach _ _ Hk) as [_ Hlt]. lia. }
  destruct Hfirst as (Hslot1 & Hinv & Hcase).
  assert (Hagain : get r name s1 = (Ok inst, s1)) by by apply get_cached.
  split; [done|]. split; [done|]. split; [done|]. split; [done|]. split.
  - intros k. cbn [replicate]. unfold run. cbn [fold_left run_op].
    rewrite Hget. cbn [snd]. by apply (run_repeated_get r name s1 inst).
  - intros ops Hops. by apply get_cached, run_cached.
Qed.

(** C8.  In every state the factory can reach, [clear_instances] empties
    the cache and leaves the registrations of all five roles as they
    were.  A [get] made right after it finds no cached object: when it
    returns, it has invoked the class registered for its key once more
    and returns, and caches, a new instance of that class whose identity
    differs from that of every object cached before the clear.  And it
    does return, for every role, whenever the class registered for its
    key, and for each default singleton it is built over, constructs
    without raising. *)
Theorem clear_rebuilds r name s :
  reachable settings s →
  let s0 := clear_instances s in
  _instances s0 = ∅ ∧
  (∀ r', registry r' s0 = registry r' s) ∧
  (∀ inst' s',
     get r name s0 = (Ok inst', s') →
     (∀ k inst, _instances s !! k = Some inst → obj_id inst' ≠ obj_id inst) ∧
     invocations r (effective_name r name) s'
     = S (invocations r (effective_name r name) s) ∧
     _instances s' !! cache_key r name = Some inst' ∧
     dict_get (effective_name r name) (registry r s)
     = Some (obj_class inst')) ∧
  (constructible r name s →
   ∃ inst' s', get r name s0 = (Ok inst', s')).
Proof.
  intros Hreach s0.
  assert (Hreg : ∀ r', registry r' s0 = registry r' s) by by intros [].
  split; [done|]. split; [done|]. split.
  - intros inst' s' Hget.
    assert (Hslot : _instances s0 !! cache_key r name = None)
      by apply lookup_empty.
    destruct (get_uncached_ok _ _ _ _ _ Hslot Hget) as (H1 & H2 & H3 & H4).
    split; [|split; [done|split; [done|by rewrite <- Hreg]]].
    intros k inst Hk.
    destruct (reachable_wf _ Hreach _ _ Hk) as [_ Hlt].
    change (next_id s0) with (next_id s) in H3. lia.
  - intros Hc. apply get_obtainable.
    by apply (constructible_obtainable r name s s0).
Qed.



(** *** Readiness *)

Lemma verdict_true probe r s :
  verdict probe r s = true ↔
  ∃ inst s', get r None s = (Ok inst, s') ∧ probe inst = Ok true.
Proof.
  unfold verdict, try_validate.
  destruct (get r None s) as [[inst|e] s1]; simpl.
  - destruct (probe inst) as [b|e] eqn:Hp; simpl.
    + split; [intros ->; by exists inst, s1|].
      intros (inst' & s' & [= <- <-] & Hp'). congruence.
    + split; [done|]. intros (inst' & s' & [= <- <-] & Hp'). congruence.
  - split; [done|]. by intros (inst' & s' & [=] & _).
Qed.

(** The verdict of a leaf role only depends on that role's registrations
    and on its own cache slot. *)
Lemma verdict_frame probe r s s1 :
  identity_blind probe → deps r = [] →
  registry r s1 = registry r s →
  _instances s1 !! cache_key r None = _instances s !! cache_key r None →
  verdict probe r s1 = verdict probe r s.
Proof.
  intros Hblind Hleaf Hreg Hslot. unfold verdict, try_validate.
  destruct (_instances s !! cache_key r None) as [inst|] eqn:Hs.
  - rewrite (get_cached _ _ _ _ Hs), (get_cached _ _ _ _ Hslot).
    by destruct (probe inst).
  - rewrite (get_uncached _ _ _ Hs), (get_uncached _ _ _ Hslot).
    destruct (dict_get (effective_name r None) (registry r s)) as [c|] eqn:Hc.
    + rewrite (create_leaf_registered r None s c),
        (create_leaf_registered r None s1 c) by (by rewrite ?Hreg).
      unfold instantiate.
      destruct (cls_init c []); [done|].
      rewrite (Hblind (mkInstance (next_id s1) c [])
                 (mkInstance (next_id s) c [])) by done.
      by destruct (probe _).
    + rewrite !create_unregistered
        by (rewrite effective_name_idem, ?Hreg; done).
      done.
Qed.

(** C5.  For a connection check that does not depend on object identity,
    [validate_all_connections] always returns an entry for each of the
    three roles, and each entry is exactly what probing that role on its
    own would record: true iff its singleton can be fetched or built and
    its check returns true, false when building or checking raises or the
    check returns false -- whatever happens to the other two roles.  So
    when exactly one role fails, that role alone is recorded false and
    the other two true.  The readiness endpoint answers 200 / "ready" iff
    the conjunction of the three entries holds, and 503 / "not ready"
    otherwise. *)
Theorem readiness_independent probe s :
  identity_blind probe →
  let b1 := verdict probe LLM s in
  let b2 := verdict probe Embeddings s in
  let b3 := verdict probe VectorStore s in
  let resp := fst (readiness_check settings probe s) in
  fst (validate_all_connections settings probe s)
  = [("llm_provider", b1); ("embeddings_service", b2); ("vector_store", b3)] ∧
  (∀ r, verdict probe r s = true ↔
        ∃ inst s', get r None s = (Ok inst, s') ∧ probe inst = Ok true) ∧
  services resp
  = [("llm_provider", b1); ("embeddings_service", b2); ("vector_store", b3)] ∧
  status_code resp = (if b1 && b2 && b3 then 200 else 503) ∧
  status resp = (if b1 && b2 && b3 then "ready" else "not ready") ∧
  ((b1 = false ∧ b2 = true ∧ b3 = true) ∨
   (b1 = true ∧ b2 = false ∧ b3 = true) ∨
   (b1 = true ∧ b2 = true ∧ b3 = false) →
   status_code resp = 503 ∧ status resp = "not ready").
Proof.
  intros Hblind b1 b2 b3 resp.
  assert (Hres : validate_all_connections settings probe s
                 = ([("llm_provider", b1); ("embeddings_service", b2);
                     ("vector_store", b3)],
                    snd (validate_all_connections settings probe s))).
  { unfold validate_all_connections.
    change (get_llm_provider settings None) with (get LLM None).
    change (get_embeddings_service settings None) with (get Embeddings None).
    change (get_vector_store settings None) with (get VectorStore None).
    pose proof (get_grow_leaf LLM None s eq_refl) as Hg1.
    rewrite <- (try_validate_state probe) in Hg1.
    destruct (try_validate probe (get LLM None) s) as [c1 s1] eqn:H1.
    cbn [snd] in Hg1.
    pose proof (get_grow_leaf Embeddings None s1 eq_refl) as Hg2.
    rewrite <- (try_validate_state probe) in Hg2.
    destruct (try_validate probe (get Embeddings None) s1) as [c2 s2] eqn:H2.
    cbn [snd] in Hg2.
    destruct (try_validate probe (get VectorStore None) s2) as [c3 s3] eqn:H3.
    assert (c1 = b1) as -> by (subst b1; unfold verdict; by rewrite H1).
    assert (c2 = b2) as ->.
    { subst b2. rewrite <- (verdict_frame probe Embeddings s s1); try done.
      - unfold verdict. by rewrite H2.
      - by apply (grow_registry [LLM]).
      - apply (grow_other_slot [LLM]); [roles | done]. }
    assert (c3 = b3) as ->.
    { subst b3.
      assert (Hg : grow [LLM; Embeddings] s s2).
      { eapply grow_trans; (eapply grow_mono; [|done]); roles. }
      rewrite <- (verdict_frame probe VectorStore s s2); try done.
      - unfold verdict. by rewrite H3.
      - by apply (grow_registry [LLM; Embeddings]).
      - apply (grow_other_slot [LLM; Embeddings]); [roles | done]. }
    reflexivity. }
  assert (Hresp : resp = {| status_code := if b1 && b2 && b3 then 200 else 503;
                            status := if b1 && b2 && b3
                                      then "ready" else "not ready";
                            services := [("llm_provider", b1);
                                         ("embeddings_service", b2);
                                         ("vector_store", b3)] |}).
  { subst resp. unfold readiness_check. rewrite Hres. simpl.
    unfold all. simpl. rewrite andb_true_r, andb_assoc. done. }
  split; [by rewrite Hres|]. split; [intros r; apply verdict_true|].
  rewrite Hresp. simpl. split; [done|]. split; [done|]. split; [done|].
  intros [(-> & -> & ->)|[(-> & -> & ->)|(-> & -> & ->)]]; done.
Qed.

End WithSettings.

Lemma demo_state_reachable : reachable demo_settings demo_state.
Proof. by exists demo_ops. Qed.

Lemma demo_cached_reachable : reachable demo_settings demo_cached.
Proof. by exists (demo_ops ++ [OpGet LLM None]). Qed.

Lemma demo_probe_blind : identity_blind demo_probe.
Proof. intros i j Hc _. unfold demo_probe. by rewrite Hc. Qed.

Lemma demo_chat_cached_reachable : reachable demo_settings demo_chat_cached.
Proof. by exists (demo_ops ++ [OpGet Chat None]). Qed.

(** Every class of the demo factory is registered and constructs. *)
Ltac demo_buildable :=
  repeat split; eexists; (split; [reflexivity|]); done.

Lemma demo_constructible r : constructible demo_settings r None demo_state.
Proof. destruct r; (split; [|try done]); demo_buildable. Qed.

Lemma get_singleton_witness :
  ∃ inst s1,
    get demo_settings Chat None demo_state = (Ok inst, s1) ∧
    _instances s1 !! "chat_service_default" = Some inst ∧
    obj_class inst = plain "DefaultChatService" ∧
    invocations Chat "default" s1 = 1%nat ∧
    get demo_settings Chat None s1 = (Ok inst, s1).
Proof.
  destruct (proj1 (get_singleton demo_settings Chat None demo_state))
    as (inst & s1 & Hget).
  { apply (constructible_obtainable demo_settings Chat None demo_state);
      [done | apply demo_constructible]. }
  destruct (proj2 (get_singleton demo_settings Chat None demo_state)
              inst s1 Hget) as (H1 & _ & (Hcls & Hinv & _) & H2 & _).
  exists inst, s1. split; [done|]. split; [done|]. split; [|by split].
  by injection Hcls as <-.
Defined.

Lemma unknown_provider_witness :
  get demo_settings LLM (Some "anthropic") demo_state
  = (Raise (ValueError [Lit "Unknown LLM provider: "; FStr "anthropic";
                        Lit ". Available providers: "; FList ["openai"]]),
     demo_state).
Proof.
  refine (proj1 (proj2 (unknown_provider demo_settings LLM (Some "anthropic")
                          None None [] demo_state demo_state_reachable _))).
  change ("anthropic" ∉ ["openai"]). roles.
Defined.


Lemma demo_chat_cached_slot :
  _instances demo_chat_cached !! "chat_service_default"
  = Some (mkInstance 4 (plain "DefaultChatService")
            [("llm_provider", Ref 0); ("retrieval_strategy", Ref 3)]).
Proof. vm_compute. reflexivity. Qed.

Lemma demo_chat_cached_registry r :
  registry r demo_chat_cached = registry r demo_state.
Proof.
  unfold demo_chat_cached, demo_state, run. rewrite fold_left_app.
  cbn [fold_left run_op].
  apply (grow_registry _ _ _ r (get_grow demo_settings Chat None _)).
Qed.

Lemma clear_rebuilds_witness :
  ∃ inst' s',
    get demo_settings Chat None (clear_instances demo_chat_cached)
    = (Ok inst', s') ∧
    obj_id inst' ≠ 4%nat.
Proof.
  destruct (clear_rebuilds demo_settings Chat None demo_chat_cached
              demo_chat_cached_reachable) as (_ & _ & Hnew & Hex).
  destruct Hex as (inst' & s' & Hget).
  { destruct (demo_constructible Chat)
      as [(c & Hc & Hk) ((cl & Hcl & Hkl) & (cr & Hcr & Hkr)
                         & (cv & Hcv & Hkv) & (ce & Hce & Hke))].
    split; [|repeat split]; eexists;
      (split; [rewrite demo_chat_cached_registry; eassumption | done]). }
  exists inst', s'. split; [done|].
  apply (proj1 (Hnew inst' s' Hget) "chat_service_default" _
           demo_chat_cached_slot).
Defined.

Lemma readiness_independent_witness :
  fst (validate_all_connections demo_settings demo_probe demo_state)
  = [("llm_provider", true); ("embeddings_service", true);
     ("vector_store", false)]
  ∧ status_code (fst (readiness_check demo_settings demo_probe demo_state))
    = 503.
Proof.
  destruct (readiness_independent demo_settings demo_probe demo_state
              demo_probe_blind) as (Hres & _ & _ & _ & _ & Hone).
  split; [exact Hres|].
  apply Hone. right. right. by repeat split.
Defined.

End FactorySpec.

(** ** More on dictionaries *)

Module PyDictMore.
Section Dict.
Context {K V : Type} `{EqDecision K}.
Implicit Types (k : K) (v : V) (d : list (K * V)).

Lemma dict_keys_set k v d :
  dict_keys (dict_set k v d)
  = if dict_mem k d then dict_keys d else dict_keys d ++ [k].
Proof.
  unfold dict_mem. induction d as [|[k' v'] d IH]; simpl; [done|].
  destruct (decide (k = k')) as [->|Hne]; simpl; [done|].
  rewrite IH. by destruct (dict_get k d).
Qed.

Lemma dict_keys_set_NoDup k v d :
  NoDup (dict_keys d) → NoDup (dict_keys (dict_set k v d)).
Proof.
  intros Hd. rewrite dict_keys_set.
  destruct (dict_mem k d) eqn:Hmem; [done|].
  apply NoDup_app. split; [done|]. split.
  - intros x Hx Hk. apply list_elem_of_singleton in Hk as ->.
    apply dict_mem_true in Hx. congruence.
  - apply NoDup_singleton.
Qed.

Lemma dict_set_id k v d : dict_get k d = Some v → dict_set k v d = d.
Proof.
  induction d as [|[k' v'] d IH]; simpl; [done|].
  destruct (decide (k = k')) as [->|Hne].
  - by intros [= ->].
  - intros H. by rewrite IH.
Qed.

Lemma dict_get_elem k v d :
  NoDup (dict_keys d) → (k, v) ∈ d → dict_get k d = Some v.
Proof.
  induction d as [|[k' v'] d IH]; simpl; intros Hnd Hin.
  - by apply elem_of_nil in Hin.
  - apply NoDup_cons in Hnd as [Hk' Hnd].
    apply elem_of_cons in Hin as [[= <- <-]|Hin].
    + by rewrite decide_True.
    + destruct (decide (k = k')) as [->|Hne]; [|by apply IH].
      destruct Hk'. apply list_elem_of_fmap. by exists (k', v).
Qed.

Lemma dict_get_None k d : k ∉ dict_keys d → dict_get k d = None.
Proof.
  intros Hk. destruct (dict_get k d) eqn:Hg; [|done].
  destruct Hk. apply dict_get_keys. by rewrite Hg.
Qed.
End Dict.
End PyDictMore.

(** ** Service factory: failure, bypass, re-registration, listing *)

Module FactoryMore.
Import Factory FactorySpec FactoryCases PyDictMore.

Lemma register_instances r name c s :
  _instances (register r name c s) = _instances s.
Proof. by destruct r. Qed.

Lemma registry_register r name c s :
  registry r (register r name c s) = dict_set name c (registry r s).
Proof. by destruct r. Qed.

Lemma registry_register_other r r' name c s :
  r ≠ r' → registry r' (register r name c s) = registry r' s.
Proof. by destruct r, r'. Qed.

Section WithSettings.
Variable settings : Settings.

Local Abbreviation effective_name := (Factory.effective_name settings).
Local Abbreviation cache_key := (Factory.cache_key settings).
Local Abbreviation create := (Factory.create settings).
Local Abbreviation get := (Factory.get settings).

(** A [get] that returns leaves its result in its slot. *)
Lemma get_ok_slot r name s inst s' :
  get r name s = (Ok inst, s') →
  _instances s' !! cache_key r name = Some inst.
Proof.
  intros Hget.
  destruct (_instances s !! cache_key r name) as [inst0|] eqn:Hslot.
  - rewrite (get_cached settings _ _ _ _ Hslot) in Hget.
    by injection Hget as <- <-.
  - by destruct (get_uncached_ok settings _ _ _ _ _ Hslot Hget).
Qed.

(** A [get] that raises leaves its slot empty. *)
Lemma get_raise_slot r name s e s' :
  get r name s = (Raise e, s') →
  _instances s' !! cache_key r name = None.
Proof.
  intros Hget.
  destruct (_instances s !! cache_key r name) as [inst|] eqn:Hslot.
  { by rewrite (get_cached settings _ _ _ _ Hslot) in Hget. }
  rewrite (get_uncached settings _ _ _ Hslot) in Hget.
  pose proof (create_spec settings r (Some (effective_name r name))
                None None [] s) as Hpost.
  rewrite effective_name_idem in Hpost.
  destruct (Factory.create settings r (Some (effective_name r name))
              None None [] s) as [[inst0|e0] s1]; [done|].
  injection Hget as -> ->. cbn [fst snd] in Hpost.
  unfold Factory.cache_key in *.
  destruct Hpost as (s2 & Hg & [[? ->]|(c & b & ? & -> & ?)]).
  - by rewrite (grow_other_slot _ _ _ _ _ (deps_irrefl r) Hg).
  - rewrite instances_set_alloc.
    by rewrite (grow_other_slot _ _ _ _ _ (deps_irrefl r) Hg).
Qed.

(** X1.  A [get] that raises -- for any role, and whether the name is
    unknown, a dependency fails or the class itself raises -- found its
    cache slot empty and leaves it empty, so no half-built object is ever
    cached and a later [get] tries again; the registrations and every
    object cached before the call are untouched. *)
Theorem failed_get_caches_nothing r name s e s' :
  get r name s = (Raise e, s') →
  _instances s !! cache_key r name = None ∧
  _instances s' !! cache_key r name = None ∧
  (∀ r', registry r' s' = registry r' s) ∧
  (∀ k inst, _instances s !! k = Some inst → _instances s' !! k = Some inst).
Proof.
  intros Hget.
  pose proof (get_grow settings r name s) as Hgrow. rewrite Hget in Hgrow.
  cbn [snd] in Hgrow.
  split; [|split; [|split]].
  - destruct (_instances s !! cache_key r name) as [inst|] eqn:Hslot; [|done].
    by rewrite (get_cached settings _ _ _ _ Hslot) in Hget.
  - by apply (get_raise_slot r name s e).
  - intros r'. by apply (grow_registry (r :: deps r)).
  - intros k inst. by apply (grow_cached (r :: deps r)).
Qed.

(** X2.  A leaf [get] whose registered class raises in its constructor
    re-raises that exception, invokes the class once, allocates nothing
    and leaves the cache exactly as it was; asking again invokes the
    class again. *)
Theorem failing_constructor_retried r name s c e :
  deps r = [] →
  _instances s !! cache_key r name = None →
  dict_get (effective_name r name) (registry r s) = Some c →
  cls_init c [] = Some e →
  ∃ s1 s2,
    get r name s = (Raise e, s1) ∧
    _instances s1 = _instances s ∧
    next_id s1 = next_id s ∧
    invocations r (effective_name r name) s1
    = S (invocations r (effective_name r name) s) ∧
    get r name s1 = (Raise e, s2) ∧
    invocations r (effective_name r name) s2
    = S (S (invocations r (effective_name r name) s)).
Proof.
  intros Hleaf Hslot Hreg Hinit.
  assert (Hstep : ∀ s0, _instances s0 !! cache_key r name = None →
            dict_get (effective_name r name) (registry r s0) = Some c →
            get r name s0
            = (Raise e, set_alloc (next_id s0)
                          (calls s0 ++ [(r, effective_name r name)]) s0)).
  { intros s0 Hs0 Hr0. rewrite (get_uncached settings _ _ _ Hs0).
    rewrite (create_leaf_registered settings r name s0 c) by done.
    unfold instantiate. by rewrite Hinit. }
  eexists _, _. split; [by apply Hstep|].
  split; [done|]. split; [done|]. split; [apply invocations_call|].
  split.
  - apply Hstep; [done | by destruct r].
  - by rewrite !invocations_call.
Qed.

(** X3.  [create] bypasses the cache.  In a reachable state, a [create]
    that returns has invoked the class of its key once, has left the
    cache slot of its key as it was, and returns an object that is not
    any of the objects cached before or after the call. *)
Theorem create_bypasses_cache r name d1 d2 kw s inst s' :
  reachable settings s →
  create r name d1 d2 kw s = (Ok inst, s') →
  _instances s' !! cache_key r name = _instances s !! cache_key r name ∧
  invocations r (effective_name r name) s'
  = S (invocations r (effective_name r name) s) ∧
  (∀ k inst0, _instances s !! k = Some inst0 → obj_id inst ≠ obj_id inst0) ∧
  (∀ k inst0, _instances s' !! k = Some inst0 → obj_id inst ≠ obj_id inst0).
Proof.
  intros Hreach Hcreate.
  pose proof (create_spec settings r name d1 d2 kw s) as Hpost.
  rewrite Hcreate in Hpost. cbn [fst snd] in Hpost.
  destruct Hpost as (s2 & Hg & [[? ?]|(c & b & Hreg & -> & Hb & Hinst)]);
    [done|].
  destruct (Hinst inst eq_refl) as [Hid _]. simpl in Hb. subst b.
  pose proof (wf_grow _ _ _ Hg (reachable_wf settings _ Hreach)) as Hwf2.
  unfold Factory.cache_key. rewrite instances_set_alloc.
  split; [by apply (grow_other_slot _ _ _ _ _ (deps_irrefl r) Hg)|].
  split.
  { rewrite invocations_call.
    by rewrite (grow_other_invocations _ _ _ _ _ (deps_irrefl r) Hg). }
  split.
  - intros k inst0 Hk.
    destruct (Hwf2 k inst0 (grow_cached _ _ _ _ _ Hg Hk)) as [_ Hlt]. lia.
  - intros k inst0 Hk. destruct (Hwf2 k inst0 Hk) as [_ Hlt]. lia.
Qed.

(** X4.  Registering another class under a name whose singleton is cached
    overwrites the registration but not the singleton: [get] keeps
    returning the old object until [clear_instances]; after the clear, a
    leaf [get] builds its object from the newly registered class. *)
Theorem reregistration_keeps_singleton r name c' s inst :
  _instances s !! cache_key r name = Some inst →
  let s1 := register r (effective_name r name) c' s in
  get r name s1 = (Ok inst, s1) ∧
  dict_get (effective_name r name) (registry r s1) = Some c' ∧
  (deps r = [] → cls_init c' [] = None →
   ∃ inst' s2, get r name (clear_instances s1) = (Ok inst', s2) ∧
               obj_class inst' = c').
Proof.
  intros Hslot s1.
  assert (Hreg : dict_get (effective_name r name) (registry r s1) = Some c').
  { subst s1. rewrite registry_register. apply dict_get_set_eq. }
  split; [|split; [done|]].
  - apply get_cached. subst s1. by rewrite register_instances.
  - intros Hleaf Hinit.
    rewrite (get_leaf_fresh settings r name (clear_instances s1) c');
      [by eexists _, _ | done | apply lookup_empty | by destruct r | done].
Qed.

(** X5.  In every reachable state the names [get_available_providers]
    lists for a role are pairwise distinct.  A registration appends a new
    name at the end of its role's list, leaves the list unchanged when
    the name is already there, and never changes the list of another
    role. *)
Theorem available_names r s :
  reachable settings s →
  NoDup (dict_keys (registry r s)) ∧
  (∀ n c, dict_keys (registry r (register r n c s))
          = if bool_decide (n ∈ dict_keys (registry r s))
            then dict_keys (registry r s)
            else dict_keys (registry r s) ++ [n]) ∧
  (∀ r' n c, r' ≠ r →
             dict_keys (registry r (register r' n c s))
             = dict_keys (registry r s)).
Proof.
  intros [ops ->]. split; [|split].
  - assert (Hgen : ∀ s0, NoDup (dict_keys (registry r s0)) →
              NoDup (dict_keys (registry r (run settings ops s0)))).
    { induction ops as [|o ops IH]; intros s0 H0; [done|].
      simpl. apply IH.
      destruct o as [r0 n0 c0|r0 n0 d1 d2 kw|r0 n0| |probe]; simpl.
      - destruct (decide (r0 = r)) as [->|Hne].
        + rewrite registry_register. by apply dict_keys_set_NoDup.
        + by rewrite registry_register_other.
      - by rewrite (grow_registry _ _ _ r
                      (create_grow settings r0 n0 d1 d2 kw s0)).
      - by rewrite (grow_registry _ _ _ r (get_grow settings r0 n0 s0)).
      - by destruct r.
      - by rewrite (grow_registry _ _ _ r (validate_grow settings probe s0)). }
    apply Hgen. destruct r; apply NoDup_nil_2.
  - intros n c. rewrite registry_register, dict_keys_set.
    destruct (dict_mem n (registry r (run settings ops initial))) eqn:Hm.
    + apply dict_mem_true in Hm. by rewrite bool_decide_true.
    + apply dict_mem_false in Hm. by rewrite bool_decide_false.
  - intros r' n c Hne. by rewrite registry_register_other.
Qed.

(** X6.  Only registrations change what [get_available_providers]
    reports: creating, getting, clearing and validating, in any number
    and order, leave its answer as it was. *)
Theorem available_providers_stable ops s :
  forallb (fun o => match o with OpRegister _ _ _ => false | _ => true end)
    ops = true →
  get_available_providers (run settings ops s) = get_available_providers s.
Proof.
  revert s. induction ops as [|o ops IH]; intros s Hops; [done|].
  simpl in Hops. apply andb_prop in Hops as [Ho Hops].
  simpl. rewrite (IH _ Hops).
  assert (Hreg : ∀ r, registry r (run_op settings s o) = registry r s).
  { intros r.
    destruct o as [r0 n0 c0|r0 n0 d1 d2 kw|r0 n0| |probe]; simpl;
      [done| | | |].
    - apply (grow_registry _ _ _ r (create_grow settings r0 n0 d1 d2 kw s)).
    - apply (grow_registry _ _ _ r (get_grow settings r0 n0 s)).
    - by destruct r.
    - apply (grow_registry _ _ _ r (validate_grow settings probe s)). }
  unfold get_available_providers.
  by rewrite (Hreg LLM : _llm_providers _ = _),
    (Hreg Embeddings : _embeddings_services _ = _),
    (Hreg VectorStore : _vector_stores _ = _),
    (Hreg Retrieval : _retrieval_strategies _ = _),
    (Hreg Chat : _chat_services _ = _).
Qed.


(** Probing a role whose singleton ends up cached gives the same answer
    in any state that holds that singleton. *)
Lemma try_validate_again probe r s b s1 inst s2 :
  try_validate probe (get r None) s = (b, s1) →
  _instances s1 !! cache_key r None = Some inst →
  _instances s2 !! cache_key r None = Some inst →
  try_validate probe (get r None) s2 = (b, s2).
Proof.
  unfold try_validate. intros Hrun H1 H2.
  rewrite (get_cached settings _ _ _ _ H2).
  destruct (get r None s) as [[inst0|e] s0] eqn:Hget.
  - pose proof (get_ok_slot _ _ _ _ _ Hget) as Hslot.
    destruct (probe inst0) as [b0|e0] eqn:Hp; injection Hrun as <- <-;
      rewrite H1 in Hslot; injection Hslot as <-; by rewrite Hp.
  - pose proof (get_raise_slot _ _ _ _ _ Hget) as Hslot.
    injection Hrun as <- <-. congruence.
Qed.

(** X8.  A readiness run builds and caches the singletons it probes.  If
    after a run all three are cached (each could be fetched or built),
    then running again with the same connection check changes nothing in
    the factory -- no class is invoked a second time -- and reports the
    same three results. *)
Theorem validate_all_idempotent probe s res s1 :
  validate_all_connections settings probe s = (res, s1) →
  (∀ r, r ∈ [LLM; Embeddings; VectorStore] →
        is_Some (_instances s1 !! cache_key r None)) →
  validate_all_connections settings probe s1 = (res, s1).
Proof.
  unfold validate_all_connections.
  change (get_llm_provider settings None) with (get LLM None).
  change (get_embeddings_service settings None) with (get Embeddings None).
  change (get_vector_store settings None) with (get VectorStore None).
  intros Hrun Hall.
  destruct (try_validate probe (get LLM None) s) as [b1 sa] eqn:H1.
  destruct (try_validate probe (get Embeddings None) sa) as [b2 sb] eqn:H2.
  destruct (try_validate probe (get VectorStore None) sb) as [b3 sc] eqn:H3.
  injection Hrun as <- <-.
  pose proof (get_grow_leaf settings Embeddings None sa eq_refl) as Hg2.
  rewrite <- (try_validate_state probe), H2 in Hg2. cbn [snd] in Hg2.
  pose proof (get_grow_leaf settings VectorStore None sb eq_refl) as Hg3.
  rewrite <- (try_validate_state probe), H3 in Hg3. cbn [snd] in Hg3.
  destruct (Hall LLM ltac:(roles)) as [il Hl].
  destruct (Hall Embeddings ltac:(roles)) as [ie He].
  destruct (Hall VectorStore ltac:(roles)) as [iv Hv].
  assert (Hla : _instances sa !! cache_key LLM None = Some il).
  { unfold Factory.cache_key in *.
    rewrite <- (grow_other_slot [Embeddings] sa sb LLM) by (roles || done).
    by rewrite <- (grow_other_slot [VectorStore] sb sc LLM) by (roles || done). }
  assert (Heb : _instances sb !! cache_key Embeddings None = Some ie).
  { unfold Factory.cache_key in *.
    by rewrite <- (grow_other_slot [VectorStore] sb sc Embeddings)
      by (roles || done). }
  rewrite (try_validate_again probe LLM s b1 sa il sc H1 Hla Hl).
  rewrite (try_validate_again probe Embeddings sa b2 sb ie sc H2 Heb He).
  by rewrite (try_validate_again probe VectorStore sb b3 sc iv sc H3 Hv Hv).
Qed.


Lemma try_validate_unregistered probe r s :
  wf s →
  effective_name r None ∉ dict_keys (registry r s) →
  try_validate probe (get r None) s = (false, s).
Proof.
  intros Hwf Hreg. unfold try_validate.
  rewrite (get_uncached settings r None s)
    by (by apply unregistered_uncached).
  rewrite create_unregistered; [done|].
  rewrite effective_name_idem.
  destruct (dict_get _ _) eqn:Hget; [|done].
  exfalso. apply Hreg, dict_get_keys. by rewrite Hget.
Qed.

(** X10.  If the provider name configured for one of the three probed
    roles has no registered class, then in every reachable state and for
    every connection check the readiness run records false for that role
    and the [/ready] endpoint answers 503 "not ready". *)
Theorem unregistered_default_not_ready r probe s :
  reachable settings s →
  r ∈ [LLM; Embeddings; VectorStore] →
  effective_name r None ∉ dict_keys (registry r s) →
  dict_get (result_key r) (fst (validate_all_connections settings probe s))
  = Some false ∧
  status_code (fst (readiness_check settings probe s)) = 503 ∧
  status (fst (readiness_check settings probe s)) = "not ready".
Proof.
  intros Hreach Hr Hreg. pose proof (reachable_wf settings s Hreach) as Hwf.
  unfold readiness_check, validate_all_connections.
  change (get_llm_provider settings None) with (get LLM None).
  change (get_embeddings_service settings None) with (get Embeddings None).
  change (get_vector_store settings None) with (get VectorStore None).
  pose proof (get_grow_leaf settings LLM None s eq_refl) as Hg1.
  rewrite <- (try_validate_state probe) in Hg1.
  destruct (try_validate probe (get LLM None) s) as [b1 sa] eqn:H1.
  cbn [snd] in Hg1.
  pose proof (get_grow_leaf settings Embeddings None sa eq_refl) as Hg2.
  rewrite <- (try_validate_state probe) in Hg2.
  destruct (try_validate probe (get Embeddings None) sa) as [b2 sb] eqn:H2.
  cbn [snd] in Hg2.
  destruct (try_validate probe (get VectorStore None) sb) as [b3 sc] eqn:H3.
  pose proof (wf_grow _ _ _ Hg1 Hwf) as Hwfa.
  pose proof (wf_grow _ _ _ Hg2 Hwfa) as Hwfb.
  assert (Hfalse : match r with
                   | LLM => b1 | Embeddings => b2 | _ => b3
                   end = false).
  { rewrite !elem_of_cons, elem_of_nil in Hr.
    destruct Hr as [->|[->|[->|[]]]].
    - rewrite try_validate_unregistered in H1 by done. by injection H1.
    - rewrite try_validate_unregistered in H2; [by injection H2 | done|].
      by rewrite (grow_registry _ _ _ Embeddings Hg1).
    - rewrite try_validate_unregistered in H3; [by injection H3 | done|].
      rewrite (grow_registry _ _ _ VectorStore Hg2).
      by rewrite (grow_registry _ _ _ VectorStore Hg1). }
  change (dict_set "vector_store" b3
            (dict_set "embeddings_service" b2 (dict_set "llm_provider" b1 [])))
    with [("llm_provider", b1); ("embeddings_service", b2);
          ("vector_store", b3)].
  cbn [fst status_code status]. unfold all. cbn [dict_values map snd forallb].
  rewrite !elem_of_cons, elem_of_nil in Hr.
  destruct Hr as [->|[->|[->|[]]]]; subst; cbn [result_key];
    (split; [reflexivity|]);
    repeat match goal with b : bool |- _ => destruct b end; done.
Qed.

End WithSettings.

Lemma demo_broken_reachable : reachable demo_settings demo_broken.
Proof. by eexists. Qed.

Lemma failed_get_caches_nothing_witness :
  ∃ s', get demo_settings LLM None demo_broken = (Raise demo_error, s') ∧
        _instances s' !! "llm_provider_openai" = None.
Proof.
  eexists. split; [reflexivity|].
  exact (proj1 (proj2 (failed_get_caches_nothing demo_settings LLM None
                         demo_broken demo_error _ eq_refl))).
Defined.

Lemma failing_constructor_retried_witness :
  ∃ s1 s2,
    get demo_settings LLM None demo_broken = (Raise demo_error, s1) ∧
    get demo_settings LLM None s1 = (Raise demo_error, s2) ∧
    invocations LLM "openai" s2 = 2%nat.
Proof.
  destruct (failing_constructor_retried demo_settings LLM None demo_broken
              (failing "OpenAIProvider" demo_error) demo_error
              eq_refl eq_refl eq_refl eq_refl)
    as (s1 & s2 & H1 & _ & _ & _ & H2 & H3).
  by exists s1, s2.
Defined.

Lemma create_bypasses_cache_witness :
  ∃ inst s' cached,
    create demo_settings LLM None None None [] demo_cached = (Ok inst, s') ∧
    _instances s' !! "llm_provider_openai" = Some cached ∧
    obj_id inst ≠ obj_id cached.
Proof.
  eexists _, _, _. split; [reflexivity|]. split; [reflexivity|].
  refine (proj1 (proj2 (proj2 (create_bypasses_cache demo_settings LLM None
                                 None None [] demo_cached _ _
                                 demo_cached_reachable eq_refl)))
            "llm_provider_openai" _ eq_refl).
Defined.

Lemma reregistration_keeps_singleton_witness :
  ∃ inst,
    _instances demo_cached !! "llm_provider_openai" = Some inst ∧
    get demo_settings LLM None
      (register LLM "openai" (plain "AzureProvider") demo_cached)
    = (Ok inst, register LLM "openai" (plain "AzureProvider") demo_cached).
Proof.
  eexists. split; [reflexivity|].
  exact (proj1 (reregistration_keeps_singleton demo_settings LLM None
                  (plain "AzureProvider") demo_cached _ eq_refl)).
Defined.

Lemma available_names_witness :
  NoDup (dict_keys (registry VectorStore demo_state)) ∧
  dict_keys (registry VectorStore
               (register VectorStore "chromadb" (plain "ChromaDBStore")
                  demo_state))
  = ["pinecone"; "chromadb"].
Proof.
  destruct (available_names demo_settings VectorStore demo_state
              demo_state_reachable) as (H1 & H2 & _).
  split; [exact H1|]. exact (H2 "chromadb" (plain "ChromaDBStore")).
Defined.

Lemma available_providers_stable_witness :
  get_available_providers
    (run demo_settings [OpGet Chat None; OpClear; OpCreate LLM None None None []]
       demo_state)
  = get_available_providers demo_state.
Proof.
  exact (available_providers_stable demo_settings
           [OpGet Chat None; OpClear; OpCreate LLM None None None []]
           demo_state eq_refl).
Defined.



Lemma validate_all_idempotent_witness :
  ∃ res s1,
    validate_all_connections demo_settings demo_probe demo_state = (res, s1) ∧
    validate_all_connections demo_settings demo_probe s1 = (res, s1).
Proof.
  eexists _, _. split; [reflexivity|].
  apply (validate_all_idempotent demo_settings demo_probe demo_state);
    [reflexivity|].
  intros r Hr. rewrite !elem_of_cons, elem_of_nil in Hr.
  destruct Hr as [->|[->|[->|[]]]]; eexists; reflexivity.
Defined.

Lemma unregistered_default_not_ready_witness :
  status_code (fst (readiness_check demo_settings (fun _ => Ok true)
                      demo_broken)) = 503.
Proof.
  refine (proj1 (proj2 (unregistered_default_not_ready demo_settings
                          VectorStore (fun _ => Ok true) demo_broken
                          demo_broken_reachable _ _))); [roles|].
  change ("pinecone" ∉ (@nil string)). apply not_elem_of_nil.
Defined.

End FactoryMore.

(** ** Request admission *)

Module SecuritySpec.
Import RateLimiter RateLimiterSpec Security.

(** X11.  A limiter whose ceiling is zero or negative rejects every
    admission check of every client at every time: each call returns
    false, none raises, and nothing is ever stored. *)
Theorem nonpositive_ceiling_rejects_all rpm checks :
  rpm ≤ 0 →
  is_allowed_all (init rpm) checks
  = (map (fun _ => Ok false) checks, init rpm).
Proof.
  intros Hrpm. induction checks as [|[c now] checks IH]; [done|].
  cbn [is_allowed_all map]. rewrite is_allowed_empty.
  destruct (Z.leb_spec rpm 0); [|lia]. by rewrite IH.
Qed.

(** X12.  On a limiter with a positive ceiling the first admission check
    returns true and stores a count of 1 for its client and minute;
    every check after it, for any client and at any time, raises
    [TypeError] and leaves that single entry as the whole state. *)
Theorem only_first_admission_completes rpm client_id now checks :
  0 < rpm →
  is_allowed_all (init rpm) ((client_id, now) :: checks)
  = (Ok true :: map (fun _ => Raise tuple_int_error) checks,
     mk rpm [((client_id, now / 60), 1)]).
Proof.
  intros Hrpm. cbn [is_allowed_all]. rewrite is_allowed_empty.
  destruct (Z.leb_spec rpm 0); [lia|].
  assert (Hrest : is_allowed_all (mk rpm [((client_id, now / 60), 1)]) checks
                  = (map (fun _ => Raise tuple_int_error) checks,
                     mk rpm [((client_id, now / 60), 1)])).
  { induction checks as [|[c n] checks IH]; [done|].
    cbn [is_allowed_all map]. rewrite is_allowed_nonempty by done.
    by rewrite IH. }
  by rewrite Hrest.
Qed.

(** X13.  The rate limit middleware.  Requests for the health,
    readiness and documentation paths go to the next handler and the
    limiter is neither consulted nor changed, whatever its state.  For
    any other path the answer is decided by the limiter: with an empty
    limiter and a positive ceiling the request goes to the next handler
    and is counted once under its client identifier; with an empty
    limiter and a ceiling of zero or less it is answered 429 with
    [Retry-After: 60] and not counted; and once the limiter holds an
    entry the [TypeError] of the admission check is not caught and the
    middleware fails, the limiter unchanged. *)
Theorem dispatch_limited rl path request now :
  (path ∈ exempt_paths → dispatch rl path request now = (CallNext, rl)) ∧
  (path ∉ exempt_paths →
   (requests rl = [] → 0 < requests_per_minute rl →
    dispatch rl path request now
    = (CallNext,
       mk (requests_per_minute rl)
         [((get_client_id request, now / 60), 1)])) ∧
   (requests rl = [] → requests_per_minute rl ≤ 0 →
    dispatch rl path request now
    = (Respond 429
         [("error", "Rate limit exceeded. Please try again later.")]
         [("Retry-After", "60")], rl)) ∧
   (requests rl ≠ [] →
    dispatch rl path request now = (Fail tuple_int_error, rl))).
Proof.
  unfold dispatch, check_rate_limit. split.
  { intros Hp. by rewrite bool_decide_true. }
  intros Hp. rewrite bool_decide_false by done.
  destruct rl as [rpm reqs]. cbn [requests requests_per_minute].
  split; [|split].
  - intros -> Hrpm.
    change (mk rpm []) with (init rpm). rewrite is_allowed_empty.
    by destruct (Z.leb_spec rpm 0); [lia|].
  - intros -> Hrpm.
    change (mk rpm []) with (init rpm). rewrite is_allowed_empty.
    by destruct (Z.leb_spec rpm 0); [|lia].
  - intros Hne. by rewrite is_allowed_nonempty.
Qed.

(** X14.  [APIKeyAuth] returns the presented key, unchanged, only when
    the key is not empty and belongs to the keys in force; every other
    call raises a 401 (and then the key was omitted, empty or not among
    the keys), and no other exception escapes.  The keys in force are the
    list given at construction, or the configured keys when no list or
    an empty list was given; with no keys in force every key is
    refused. *)
Theorem api_key_accepted keys allowed api_key :
  let auth := APIKeyAuth_init keys allowed in
  api_keys auth = match keys with
                  | Some (k0 :: ks) => k0 :: ks
                  | _ => allowed
                  end ∧
  match APIKeyAuth_call auth api_key with
  | Return k => api_key = Some k ∧ k ≠ "" ∧ k ∈ api_keys auth
  | HTTPRaise e =>
      http_status e = 401 ∧
      (api_key = None ∨ api_key = Some "" ∨
       ∃ k, api_key = Some k ∧ k ∉ api_keys auth)
  | Propagate _ => False
  end.
Proof.
  intros auth. split; [by destruct keys as [[|]|]|].
  unfold APIKeyAuth_call. destruct api_key as [s|]; simpl; [|by split; auto].
  destruct (String.eqb_spec s "") as [->|Hs]; simpl; [by split; auto|].
  destruct (api_keys auth) as [|k0 ks]; simpl.
  { split; [done|]. right. right. exists s. split; [done|].
    apply not_elem_of_nil. }
  destruct (bool_decide_reflect (s ∈ k0 :: ks)) as [Hin|Hin]; simpl.
  - done.
  - split; [done|]. right. right. by exists s.
Qed.

Lemma nonpositive_ceiling_rejects_all_witness :
  is_allowed_all (init 0) [("a", 0); ("a", 30); ("b", 61)]
  = ([Ok false; Ok false; Ok false], init 0).
Proof.
  exact (nonpositive_ceiling_rejects_all 0 [("a", 0); ("a", 30); ("b", 61)]
           ltac:(lia)).
Defined.

Lemma only_first_admission_completes_witness :
  is_allowed_all (init 100) [("a", 0); ("a", 30); ("b", 61)]
  = ([Ok true; Raise tuple_int_error; Raise tuple_int_error],
     mk 100 [(("a", 0), 1)]).
Proof.
  exact (only_first_admission_completes 100 "a" 0 [("a", 30); ("b", 61)]
           ltac:(lia)).
Defined.

Lemma dispatch_limited_witness :
  dispatch (mk 100 [(("a", 0), 1)]) "/health" (mkRequest None []) 75
  = (CallNext, mk 100 [(("a", 0), 1)]) ∧
  dispatch (mk 100 [(("a", 0), 1)]) "/api/v1/chat" (mkRequest None []) 75
  = (Fail tuple_int_error, mk 100 [(("a", 0), 1)]).
Proof.
  split.
  - apply (dispatch_limited (mk 100 [(("a", 0), 1)]) "/health"
             (mkRequest None []) 75).
    apply list_elem_of_here.
  - apply (dispatch_limited (mk 100 [(("a", 0), 1)]) "/api/v1/chat"
             (mkRequest None []) 75); [|done].
    unfold exempt_paths. rewrite !not_elem_of_cons. repeat split; try done.
    apply not_elem_of_nil.
Defined.

Example api_key_fallback :
  APIKeyAuth_call (APIKeyAuth_init (Some []) ["k-123"]) (Some "k-123")
  = Return "k-123".
Proof. reflexivity. Qed.

End SecuritySpec.

(** ** Input sanitising *)

Module ValidationSpec.
Import RateLimiter Validation.

Lemma split_ws_cons c s :
  split_ws (String c s)
  = if is_space c then split_ws s
    else match s with
         | EmptyString => [String c EmptyString]
         | String c' _ =>
             if is_space c' then String c EmptyString :: split_ws s
             else match split_ws s with
                  | w :: ws => String c w :: ws
                  | [] => [String c EmptyString]
                  end
         end.
Proof. reflexivity. Qed.

Lemma append_cons c s r :
  String.append (String c s) r = String c (String.append s r).
Proof. reflexivity. Qed.

Lemma split_ws_words s : Forall (fun w => is_word w = true) (split_ws s).
Proof.
  induction s as [|c s IH]; [constructor|].
  rewrite split_ws_cons. destruct (is_space c) eqn:Hc; [done|].
  assert (Hone : is_word (String c "") = true)
    by (unfold is_word; simpl; by rewrite Hc).
  destruct s as [|c' s']; [by repeat constructor|].
  destruct (is_space c'); [by constructor|].
  destruct (split_ws (String c' s')) as [|w ws]; [by repeat constructor|].
  apply Forall_cons in IH as [Hw Hws].
  constructor; [|done].
  unfold is_word in *. simpl. rewrite Hc. simpl.
  by apply andb_prop in Hw as [_ ->].
Qed.

Lemma split_ws_word_sep w r :
  is_word w = true →
  split_ws (String.append w (String " "%char r)) = w :: split_ws r.
Proof.
  unfold is_word. induction w as [|c w IH]; [done|].
  intros Hw. simpl in Hw. apply andb_prop in Hw as [Hc Hw].
  apply negb_true_iff in Hc.
  rewrite append_cons, split_ws_cons, Hc.
  destruct w as [|c2 w'].
  - change (String.append "" (String " " r)) with (String " "%char r).
    rewrite (split_ws_cons " " r).
    by change (is_space " ") with true.
  - specialize (IH ltac:(by rewrite Hw)).
    rewrite append_cons in *. rewrite IH.
    simpl in Hw. apply andb_prop in Hw as [Hc2 _].
    apply negb_true_iff in Hc2. by rewrite Hc2.
Qed.

Lemma split_ws_word w : is_word w = true → split_ws w = [w].
Proof.
  unfold is_word. induction w as [|c w IH]; [done|].
  intros Hw. simpl in Hw. apply andb_prop in Hw as [Hc Hw].
  apply negb_true_iff in Hc.
  rewrite split_ws_cons, Hc.
  destruct w as [|c2 w']; [done|].
  specialize (IH ltac:(by rewrite Hw)). rewrite IH.
  simpl in Hw. apply andb_prop in Hw as [Hc2 _].
  apply negb_true_iff in Hc2. by rewrite Hc2.
Qed.

(** Splitting undoes joining. *)
Lemma split_join ws :
  Forall (fun w => is_word w = true) ws → split_ws (join_sp ws) = ws.
Proof.
  induction ws as [|w ws IH]; [done|].
  intros Hall. apply Forall_cons in Hall as [Hw Hws].
  cbn [join_sp]. destruct ws as [|w2 ws']; [by apply split_ws_word|].
  rewrite split_ws_word_sep by done. by rewrite IH.
Qed.

Lemma length_append a b :
  String.length (String.append a b)
  = (String.length a + String.length b)%nat.
Proof. induction a as [|c a IH]; simpl; [done | by rewrite IH]. Qed.

Lemma length_substring0 n s :
  String.length (String.substring 0 n s) = Nat.min n (String.length s).
Proof.
  revert s. induction n as [|n IH]; intros [|c s]; simpl; try done.
  by rewrite IH.
Qed.

Lemma join_sp_cons_length c w ws :
  String.length (join_sp (String c w :: ws))
  = S (String.length (join_sp (w :: ws))).
Proof. by destruct ws. Qed.

(** Normalising never lengthens, and a leading blank is dropped. *)
Lemma join_split_length s :
  (String.length (join_sp (split_ws s)) ≤ String.length s)%nat ∧
  match s with
  | String c _ =>
      is_space c = true →
      (S (String.length (join_sp (split_ws s))) ≤ String.length s)%nat
  | EmptyString => True
  end.
Proof.
  induction s as [|c s [IH1 IH2]]; [done|].
  rewrite split_ws_cons. destruct (is_space c) eqn:Hc.
  { simpl. split; [lia | intros _; lia]. }
  split; [|done].
  destruct s as [|c' s']; [simpl; lia|].
  destruct (is_space c') eqn:Hc'.
  - specialize (IH2 eq_refl).
    destruct (split_ws (String c' s')) as [|w ws]; [simpl; lia|].
    change (join_sp (String c "" :: w :: ws))
      with (String c (String " "%char (join_sp (w :: ws)))).
    simpl String.length in *. lia.
  - destruct (split_ws (String c' s')) as [|w ws]; [simpl; lia|].
    rewrite join_sp_cons_length. simpl String.length in *. lia.
Qed.

Lemma lstrip_length s : (String.length (lstrip s) ≤ String.length s)%nat.
Proof.
  induction s as [|c s IH]; [done|]. simpl.
  destruct (is_space c); simpl; lia.
Qed.

Lemma rstrip_cons c s :
  rstrip (String c s)
  = match rstrip s with
    | EmptyString => if is_space c then EmptyString else String c EmptyString
    | r => String c r
    end.
Proof. reflexivity. Qed.

Lemma rstrip_length s : (String.length (rstrip s) ≤ String.length s)%nat.
Proof.
  induction s as [|c s IH]; [done|]. rewrite rstrip_cons.
  destruct (rstrip s); [destruct (is_space c)|]; simpl in *; lia.
Qed.

Lemma strip_length s : (String.length (strip s) ≤ String.length s)%nat.
Proof.
  unfold strip. etrans; [apply rstrip_length | apply lstrip_length].
Qed.

Lemma rstrip_head s c r : rstrip s = String c r → ∃ s', s = String c s'.
Proof.
  destruct s as [|c0 s0]; [done|]. rewrite rstrip_cons.
  destruct (rstrip s0); [destruct (is_space c0)|]; intros [= <- _]; eauto.
Qed.

Lemma split_ws_lstrip s : split_ws (lstrip s) = split_ws s.
Proof.
  induction s as [|c s IH]; [done|]. simpl lstrip.
  destruct (is_space c) eqn:Hc; [|done].
  by rewrite IH, (split_ws_cons c s), Hc.
Qed.

Lemma split_ws_rstrip s : split_ws (rstrip s) = split_ws s.
Proof.
  induction s as [|c s IH]; [done|]. rewrite rstrip_cons.
  destruct (rstrip s) as [|c2 r] eqn:Hr.
  - rewrite (split_ws_cons c s). simpl in IH. rewrite <- IH.
    destruct (is_space c) eqn:Hc; [done|].
    rewrite split_ws_cons, Hc.
    destruct s as [|c' s']; [done|]. by destruct (is_space c').
  - destruct (rstrip_head _ _ _ Hr) as [s' ->].
    rewrite !(split_ws_cons c). by rewrite IH.
Qed.

(** Stripping does not change the words. *)
Lemma split_ws_strip s : split_ws (strip s) = split_ws s.
Proof. unfold strip. by rewrite split_ws_rstrip, split_ws_lstrip. Qed.

Lemma nonspace_ends w :
  nonspace w = true → ends_nonspace w = true.
Proof.
  induction w as [|c w IH]; [done|]. simpl.
  intros H. apply andb_prop in H as [Hc Hw].
  destruct w; [done | by apply IH].
Qed.

Lemma ends_nonspace_append a b :
  b ≠ EmptyString → ends_nonspace (String.append a b) = ends_nonspace b.
Proof.
  intros Hb. induction a as [|c a IH]; [done|].
  rewrite append_cons. simpl.
  destruct (String.append a b) eqn:Hab; [|done].
  destruct a, b; done.
Qed.

Lemma join_sp_head w ws :
  is_word w = true →
  ∃ c r, join_sp (w :: ws) = String c r ∧ is_space c = false.
Proof.
  unfold is_word. destruct w as [|c w]; [done|]. simpl.
  intros H. apply andb_prop in H as [Hc _]. apply negb_true_iff in Hc.
  destruct ws; simpl; eauto.
Qed.

Lemma join_sp_ends ws :
  Forall (fun w => is_word w = true) ws → ends_nonspace (join_sp ws) = true.
Proof.
  induction ws as [|w ws IH]; [done|].
  intros Hall. apply Forall_cons in Hall as [Hw Hws].
  destruct ws as [|w2 ws'].
  - simpl. apply nonspace_ends.
    unfold is_word in Hw. by apply andb_prop in Hw as [_ ?].
  - change (join_sp (w :: w2 :: ws'))
      with (String.append w (String " "%char (join_sp (w2 :: ws')))).
    rewrite ends_nonspace_append by done.
    destruct (join_sp_head w2 ws') as (c & r & Hj & _).
    { by apply Forall_cons in Hws as [? _]. }
    specialize (IH Hws). rewrite Hj in *. done.
Qed.

Lemma rstrip_id s : ends_nonspace s = true → rstrip s = s.
Proof.
  induction s as [|c s IH]; [done|]. rewrite rstrip_cons.
  destruct s as [|c2 s'].
  - simpl. intros H. apply negb_true_iff in H. by rewrite H.
  - intros H. rewrite IH by done. done.
Qed.

(** Joined words have nothing to strip. *)
Lemma strip_join ws :
  Forall (fun w => is_word w = true) ws → strip (join_sp ws) = join_sp ws.
Proof.
  intros Hall. unfold strip.
  assert (Hl : lstrip (join_sp ws) = join_sp ws).
  { destruct ws as [|w ws]; [done|].
    destruct (join_sp_head w ws) as (c & r & -> & Hc).
    { by apply Forall_cons in Hall as [? _]. }
    simpl. by rewrite Hc. }
  rewrite Hl. by apply rstrip_id, join_sp_ends.
Qed.

(** X15.  [sanitize_input] returns the words of its (possibly truncated)
    input -- the maximal runs of non-whitespace characters -- joined by
    single spaces: the result is never longer than the input, has no
    leading or trailing whitespace, and every maximal run of whitespace
    in between has become one space. *)
Theorem sanitize_input_words text max_length :
  let cut := if max_length <? Z.of_nat (String.length text)
             then prefix_slice text max_length else text in
  sanitize_input text max_length = join_sp (split_ws cut) ∧
  Forall (fun w => is_word w = true) (split_ws cut) ∧
  split_ws (sanitize_input text max_length) = split_ws cut ∧
  strip (sanitize_input text max_length) = sanitize_input text max_length ∧
  (String.length (sanitize_input text max_length) ≤ String.length text)%nat.
Proof.
  intros cut.
  assert (Hs : sanitize_input text max_length = join_sp (split_ws cut)).
  { unfold sanitize_input. fold cut. by rewrite split_ws_strip. }
  pose proof (split_ws_words cut) as Hw.
  rewrite Hs. split; [done|]. split; [done|].
  split; [by apply split_join|]. split; [by apply strip_join|].
  etrans; [apply join_split_length|].
  subst cut. destruct (max_length <? Z.of_nat (String.length text)); [|done].
  unfold prefix_slice. rewrite length_substring0. lia.
Qed.

Lemma sanitize_input_length text max_length :
  0 ≤ max_length →
  Z.of_nat (String.length (sanitize_input text max_length)) ≤ max_length.
Proof.
  intros Hm. unfold sanitize_input.
  rewrite split_ws_strip.
  pose proof (join_split_length
                (if max_length <? Z.of_nat (String.length text)
                 then prefix_slice text max_length else text)) as [Hle _].
  destruct (Z.ltb_spec max_length (Z.of_nat (String.length text))).
  - unfold prefix_slice, Embeddings.clamp in *.
    rewrite length_substring0 in Hle.
    destruct (Z.ltb_spec max_length 0); lia.
  - lia.
Qed.

(** X16.  For a non-negative [max_length] the result of [sanitize_input]
    has at most [max_length] characters; and a text that already fits is
    not cut: its result consists of all its words. *)
Theorem sanitize_input_bounded text max_length :
  0 ≤ max_length →
  Z.of_nat (String.length (sanitize_input text max_length)) ≤ max_length ∧
  (Z.of_nat (String.length text) ≤ max_length →
   sanitize_input text max_length = join_sp (split_ws text)).
Proof.
  intros Hm. split; [by apply sanitize_input_length|].
  intros Hfit. unfold sanitize_input.
  destruct (Z.ltb_spec max_length (Z.of_nat (String.length text))); [lia|].
  by rewrite split_ws_strip.
Qed.

(** X17.  For a non-negative [max_length], sanitising is idempotent:
    sanitising an already sanitised text changes nothing. *)
Theorem sanitize_input_idempotent text max_length :
  0 ≤ max_length →
  sanitize_input (sanitize_input text max_length) max_length
  = sanitize_input text max_length.
Proof.
  intros Hm.
  pose proof (sanitize_input_length text max_length Hm) as Hlen.
  set (r := sanitize_input text max_length) in *.
  assert (Hr : ∃ ws, Forall (fun w => is_word w = true) ws ∧ r = join_sp ws).
  { eexists. split; [apply split_ws_words|].
    subst r. unfold sanitize_input. by rewrite split_ws_strip. }
  destruct Hr as (ws & Hws & Hr).
  unfold sanitize_input at 1.
  destruct (Z.ltb_spec max_length (Z.of_nat (String.length r))); [lia|].
  rewrite split_ws_strip, Hr. by rewrite split_join.
Qed.

Lemma sanitize_input_bounded_witness :
  Z.of_nat (String.length (sanitize_input "  hello   wide   world  " 12)) ≤ 12.
Proof.
  apply (sanitize_input_bounded "  hello   wide   world  " 12). lia.
Defined.

Lemma sanitize_input_idempotent_witness :
  sanitize_input (sanitize_input "  hello   wide   world  " 12) 12
  = sanitize_input "  hello   wide   world  " 12.
Proof.
  apply (sanitize_input_idempotent "  hello   wide   world  " 12). lia.
Defined.

Example sanitize_input_example :
  sanitize_input "  hello   wide   world  " 12 = "hello wi".
Proof. reflexivity. Qed.

End ValidationSpec.

(** ** Upload validation *)

Module UploadSpec.
Import Upload.

Lemma lower_char_caseless c x :
  caseless c = true → Ascii.eqb c (lower_char x) = Ascii.eqb c x.
Proof.
  unfold caseless, lower_char. intros Hc.
  destruct ((65 <=? nat_of_ascii x)%nat && (nat_of_ascii x <=? 90)%nat)
    eqn:Hx; [|done].
  apply andb_true_iff in Hx as [Hx1 Hx2].
  apply Nat.leb_le in Hx1, Hx2.
  assert (Hne1 : c ≠ x).
  { intros ->. apply andb_true_iff in Hc as [Hc _].
    apply negb_true_iff, andb_false_iff in Hc as [Hc|Hc];
      apply Nat.leb_gt in Hc; lia. }
  assert (Hne2 : c ≠ ascii_of_nat (nat_of_ascii x + 32)).
  { intros ->. rewrite nat_ascii_embedding in Hc by lia.
    apply andb_true_iff in Hc as [_ Hc].
    apply negb_true_iff, andb_false_iff in Hc as [Hc|Hc];
      apply Nat.leb_gt in Hc; lia. }
  apply Ascii.eqb_neq in Hne1, Hne2. by rewrite Hne1, Hne2.
Qed.

Lemma startswith_lower sub s :
  caseless_string sub = true →
  startswith sub (lower s) = startswith sub s.
Proof.
  revert s. induction sub as [|a sub IH]; intros [|b s] Hc; try done.
  cbn [caseless_string] in Hc. apply andb_true_iff in Hc as [Ha Hc].
  cbn [lower startswith]. by rewrite lower_char_caseless, IH.
Qed.

Lemma contains_lower sub s :
  caseless_string sub = true → contains sub (lower s) = contains sub s.
Proof.
  intros Hc. induction s as [|b s IH].
  - done.
  - cbn [lower contains]. rewrite IH.
    change (String (lower_char b) (lower s)) with (lower (String b s)).
    by rewrite startswith_lower.
Qed.

Lemma lower_length s : String.length (lower s) = String.length s.
Proof. induction s as [|c s IH]; simpl; [done | by rewrite IH]. Qed.

Lemma lower_char_idem c : lower_char (lower_char c) = lower_char c.
Proof.
  unfold lower_char.
  destruct ((65 <=? nat_of_ascii c)%nat && (nat_of_ascii c <=? 90)%nat)
    eqn:Hc.
  - apply andb_true_iff in Hc as [H1 H2]. apply Nat.leb_le in H1, H2.
    rewrite nat_ascii_embedding by lia.
    replace (nat_of_ascii c + 32 <=? 90)%nat with false
      by (symmetry; apply Nat.leb_gt; lia).
    by rewrite andb_false_r.
  - by rewrite Hc.
Qed.

Lemma lower_idem s : lower (lower s) = lower s.
Proof.
  induction s as [|c s IH]; simpl; [done|].
  by rewrite lower_char_idem, IH.
Qed.

Lemma lower_empty s : String.eqb (lower s) "" = String.eqb s "".
Proof. by destruct s. Qed.

Lemma existsb_dangerous_lower s :
  existsb (fun char => contains char (lower s)) dangerous_chars
  = existsb (fun char => contains char s) dangerous_chars.
Proof.
  unfold dangerous_chars. cbn [existsb].
  by rewrite !contains_lower by reflexivity.
Qed.

Lemma split_dot_nonempty s : split_dot s ≠ [].
Proof.
  destruct s as [|c s]; [done|]. cbn [split_dot].
  destruct (Ascii.eqb c "."); [done|]. by destruct (split_dot s).
Qed.

Lemma contains_dot_cons c s :
  contains "." (String c s) = Ascii.eqb "." c || contains "." s.
Proof. cbn [contains startswith]. by rewrite andb_true_r. Qed.

Lemma split_dot_plain s : contains "." s = false → split_dot s = [s].
Proof.
  induction s as [|c s IH]; [done|].
  rewrite contains_dot_cons. intros H.
  apply orb_false_iff in H as [Hc Hs].
  cbn [split_dot]. rewrite Ascii.eqb_sym, Hc. by rewrite IH.
Qed.

Lemma last_cons_cons {A} (a b : A) l d :
  List.last (a :: b :: l) d = List.last (b :: l) d.
Proof. reflexivity. Qed.

Lemma split_dot_dotted s :
  contains "." s = true →
  (∃ w v ws, split_dot s = w :: v :: ws) ∧
  ∃ stem, s = String.append stem
                (String.append "." (List.last (split_dot s) "")).
Proof.
  induction s as [|c s IH]; [done|].
  rewrite contains_dot_cons. intros H. cbn [split_dot].
  rewrite (Ascii.eqb_sym c "."). destruct (Ascii.eqb "." c) eqn:Hc.
  - apply Ascii.eqb_eq in Hc as <-.
    destruct (contains "." s) eqn:Hs.
    + destruct (IH eq_refl) as [(w & v & ws & Hsplit) [stem Hstem]].
      split; [rewrite Hsplit; eauto|].
      exists (String "." stem). rewrite Hsplit, last_cons_cons.
      rewrite <- Hsplit, ValidationSpec.append_cons. by f_equal.
    + rewrite (split_dot_plain s Hs). split; [eauto|]. by exists "".
  - simpl in H. destruct (IH H) as [(w & v & ws & Hsplit) [stem Hstem]].
    rewrite Hsplit. split; [eauto|].
    exists (String c stem). rewrite last_cons_cons.
    rewrite <- (last_cons_cons w), <- Hsplit, ValidationSpec.append_cons.
    by f_equal.
Qed.

(** X18.  An upload that [validate_file_upload] accepts fits the size
    limit, has a name of 1 to 255 characters containing none of the
    dangerous sequences, and -- unless the empty extension is allowed --
    that name has a dot and, in lower case, ends with one of the allowed
    extensions. *)
Theorem accepted_upload_safe max_document_size filename file_size allowed :
  validate_file_upload max_document_size filename file_size allowed
  = Accepted →
  let allowed_extensions := default default_extensions allowed in
  file_size ≤ max_document_size ∧
  (1 ≤ String.length filename ≤ 255)%nat ∧
  (∀ char, char ∈ dangerous_chars → contains char filename = false) ∧
  ("" ∉ allowed_extensions →
   contains "." filename = true ∧
   ∃ stem extension,
     extension ∈ allowed_extensions ∧
     lower filename = String.append stem extension).
Proof.
  intros H allowed_extensions. unfold validate_file_upload in H.
  replace (match allowed with Some l => l | None => default_extensions end)
    with allowed_extensions in H by by destruct allowed.
  destruct (Z.ltb_spec max_document_size file_size) as [|Hsize]; [done|].
  destruct (String.eqb_spec filename "") as [->|Hname].
  { by cbn [negb orb] in H. }
  cbn [negb orb] in H.
  match type of H with
  | context [bool_decide (?e ∈ _)] => set (extension := e) in *
  end.
  destruct (bool_decide (extension ∈ allowed_extensions)) eqn:Hext; [|done].
  apply bool_decide_eq_true in Hext. cbn [negb] in H.
  destruct (Z.ltb_spec 255 (Z.of_nat (String.length filename))) as [|Hlen];
    [done|].
  destruct (existsb _ dangerous_chars) eqn:Hdanger; [done|].
  split; [done|]. split.
  { destruct filename; [done | simpl in *; lia]. }
  split.
  { intros char Hchar.
    rewrite <- not_true_iff_false. intros Hc.
    assert (existsb (fun char => contains char filename) dangerous_chars
            = true); [|congruence].
    apply existsb_exists. exists char. split; [|done].
    by apply list_elem_of_In. }
  intros Hempty. subst extension.
  destruct (contains "." filename) eqn:Hdot; [|done].
  split; [done|].
  destruct (split_dot_dotted (lower filename)) as [_ [stem Hstem]].
  { by rewrite contains_lower. }
  by exists stem, (String.append "." (List.last (split_dot (lower filename)) "")).
Qed.

(** X19.  [validate_file_upload] does not depend on the case of the
    letters of the file name: the name in lower case gets the same
    verdict. *)
Theorem upload_case_insensitive max_document_size filename file_size allowed :
  validate_file_upload max_document_size (lower filename) file_size allowed
  = validate_file_upload max_document_size filename file_size allowed.
Proof.
  unfold validate_file_upload.
  by rewrite lower_idem, lower_empty, lower_length, existsb_dangerous_lower,
    (contains_lower "." filename).
Qed.

(** X20.  The checks of [validate_file_upload] come in a fixed order: a
    file over the size limit is answered 413 whatever its name; a file
    within the limit but with an empty name is answered 400 (invalid
    filename) whatever extensions are allowed; and a non-empty name
    without a dot is answered 400 (file type not allowed) unless the empty
    extension is allowed. *)
Theorem upload_rejections max_document_size filename file_size allowed :
  let allowed_extensions := default default_extensions allowed in
  let answer :=
    validate_file_upload max_document_size filename file_size allowed in
  (max_document_size < file_size →
   answer = Rejected 413 [PLit "File too large. Maximum size: ";
                           PInt max_document_size; PLit " bytes"]) ∧
  (file_size ≤ max_document_size → filename = "" →
   answer = Rejected 400 [PLit "Invalid filename"]) ∧
  (file_size ≤ max_document_size → filename ≠ "" →
   contains "." filename = false → "" ∉ allowed_extensions →
   answer = Rejected 400 [PLit "File type not allowed. Allowed types: ";
                           PStrs allowed_extensions]).
Proof.
  intros allowed_extensions answer. subst answer.
  unfold validate_file_upload.
  replace (match allowed with Some l => l | None => default_extensions end)
    with allowed_extensions by by destruct allowed.
  repeat split.
  - intros Hsize. by destruct (Z.ltb_spec max_document_size file_size); [|lia].
  - intros Hsize ->.
    by destruct (Z.ltb_spec max_document_size file_size); [lia|].
  - intros Hsize Hname Hdot Hempty.
    destruct (Z.ltb_spec max_document_size file_size); [lia|].
    destruct (String.eqb_spec filename ""); [done|].
    rewrite Hdot. cbn [negb]. by rewrite bool_decide_eq_false_2.
Qed.

Lemma accepted_upload_safe_witness :
  ∃ stem extension,
    extension ∈ default_extensions ∧
    lower "Report.Final.PDF" = String.append stem extension.
Proof.
  refine (proj2 (proj2 (proj2 (proj2
            (accepted_upload_safe 10485760 "Report.Final.PDF" 1024 None
               eq_refl))) _)).
  unfold default_extensions. simpl.
  rewrite !not_elem_of_cons. repeat split; try done. apply not_elem_of_nil.
Defined.

Lemma upload_rejections_witness :
  validate_file_upload 100 "big.txt" 101 None
  = Rejected 413 [PLit "File too large. Maximum size: "; PInt 100;
                  PLit " bytes"].
Proof.
  exact (proj1 (upload_rejections 100 "big.txt" 101 None) ltac:(lia)).
Defined.

Example upload_examples :
  validate_file_upload 10485760 "notes.md" 10 None = Accepted ∧
  validate_file_upload 10485760 "a..txt" 10 None
  = Rejected 400 [PLit "Filename contains invalid characters"] ∧
  validate_file_upload 10485760 "archive.tar.gz" 10 None
  = Rejected 400 [PLit "File type not allowed. Allowed types: ";
                  PStrs default_extensions] ∧
  validate_file_upload 10485760 "README" 10 (Some [""]) = Accepted.
Proof. by repeat split. Qed.

End UploadSpec.

(** ** Batched embeddings: failures, odd batch sizes, truncation *)

Module EmbeddingsMore.
Import Embeddings EmbeddingsSpec Validation ValidationSpec EmbeddingsText.

Lemma build_responses_spec {Emb : Type} (mdl : string) (ds : list Emb)
    (u : list (string * Z)) (n : Z) :
  n ≠ 0 →
  ∃ rs, build_responses ds mdl u n = Ok rs ∧ map embedding rs = ds ∧
        Forall (fun x =>
                  model x = mdl ∧
                  usage x =
                  [("total_tokens", default 0 (dict_get "total_tokens" u) / n);
                   ("prompt_tokens", default 0 (dict_get "prompt_tokens" u) / n)])
               rs.
Proof.
  intros Hn. induction ds as [|d ds (rs & Hrs & Hemb & Hall)].
  - by exists [].
  - cbn [build_responses]. unfold usage_share.
    destruct (Z.eqb_spec n 0); [done|]. rewrite Hrs.
    eexists. split; [reflexivity|]. split.
    + cbn [map embedding]. by rewrite Hemb.
    + by constructor.
Qed.

Lemma build_responses_zero {Emb : Type} (mdl : string) (d : Emb)
    (ds : list Emb) (u : list (string * Z)) :
  build_responses (d :: ds) mdl u 0 = Raise ZeroDivisionError.
Proof. reflexivity. Qed.

Lemma seq_prefix {A} (f : nat → A) (c : nat) (pre : list A) (x : A)
    (rest : list A) :
  map f (seq 0 c) = pre ++ x :: rest →
  (length pre < c)%nat ∧ pre = map f (seq 0 (length pre)) ∧
  x = f (length pre).
Proof.
  intros H.
  assert (Hlen : (length pre < c)%nat).
  { apply (f_equal length) in H.
    rewrite length_map, length_seq, length_app in H. simpl in H. lia. }
  split; [done|]. split.
  - apply (f_equal (take (length pre))) in H.
    rewrite take_app_length in H.
    by rewrite firstn_map, take_seq, Nat.min_l in H by lia.
  - apply (f_equal (fun l => l !! length pre)) in H.
    rewrite list_lookup_middle in H by done.
    rewrite lookup_map, lookup_seq_lt in H by done.
    by injection H as <-.
Qed.

Section Loop.
Context {Emb World : Type}.
Variable create :
  string → list string → World → result (@ApiResponse Emb) * World.
Variables (texts : list string) (mdl : string) (batch_size : Z).

Lemma embed_loop_raise idxs acc st e st' :
  Forall (fun i => py_slice texts i (i + batch_size) ≠ []) idxs →
  embed_loop create idxs texts mdl batch_size acc st = (Raise e, st') →
  ∃ pre i rest w (ok : bool),
    idxs = pre ++ i :: rest ∧
    match create mdl (py_slice texts i (i + batch_size)) w with
    | (Raise e', w') => ok = false ∧ e' = e ∧ w' = fst st'
    | (Ok resp, w') =>
        ok = true ∧ w' = fst st' ∧
        _calculate_cost mdl (default [] (api_usage resp)) = Raise e
    end ∧
    snd st' = snd st ++ expected_events texts mdl batch_size pre
                ++ [ECreate mdl (py_slice texts i (i + batch_size)) ok].
Proof.
  intros Hne. revert acc st.
  induction Hne as [|i idxs Hi Hne IH]; intros acc [w log] H.
  - discriminate.
  - cbn [embed_loop] in H. unfold bind at 1 in H. unfold _embed_batch in H.
    cbn [fst snd] in H.
    destruct (create mdl (py_slice texts i (i + batch_size)) w)
      as [[resp|e'] w'] eqn:Hc.
    + destruct (_calculate_cost mdl (default [] (api_usage resp)))
        as [[]|e'] eqn:Hcost.
      2:{ injection H as <- <-.
          exists [], i, idxs, w, true. split; [done|].
          rewrite Hc. by rewrite app_nil_l. }
      destruct (build_responses_spec mdl (data resp)
                  (default [] (api_usage resp))
                  (Z.of_nat (length (py_slice texts i (i + batch_size)))))
        as (brs & Hbrs & _).
      { destruct (py_slice texts i (i + batch_size)); [done | simpl; lia]. }
      rewrite Hbrs in H. unfold bind at 1 in H.
      destruct (i + batch_size <? Z.of_nat (length texts)) eqn:Hcond;
        cbn [emit ret fst snd] in H;
        apply IH in H as (pre & j & rest & w1 & ok & -> & Hj & ->);
        exists (i :: pre), j, rest, w1, ok;
        (split; [done|]); (split; [done|]);
        cbn [fst snd expected_events flat_map]; rewrite Hcond;
        fold (expected_events texts mdl batch_size pre);
        by rewrite <- !app_assoc.
    + injection H as <- <-.
      exists [], i, idxs, w, false. split; [done|].
      rewrite Hc. by rewrite app_nil_l.
Qed.
End Loop.

(** X21.  For a non-empty list of texts and a batch size that is not
    positive, [embed_texts] makes no upstream request at all: with a batch
    size of zero it raises the [ValueError] of [range], and with a negative
    batch size it returns the empty list, although texts were given. *)
Theorem embed_texts_nonpositive_batch {Emb World : Type}
    (create : string → list string → World → result (@ApiResponse Emb) * World)
    (default_model : string) (texts : list string) (mdl : option string)
    (batch_size : Z) (st : @St World) :
  texts ≠ [] → batch_size ≤ 0 →
  embed_texts create default_model texts mdl batch_size st
  = (if batch_size =? 0
     then Raise (ValueError [Lit "range() arg 3 must not be zero"])
     else Ok [], st).
Proof.
  intros Hne Hbs. unfold embed_texts.
  destruct texts as [|t ts]; [done|]. unfold py_range.
  destruct (Z.eqb_spec batch_size 0); [done|].
  destruct (Z.ltb_spec 0 batch_size); [lia|].
  replace (Z.to_nat _) with 0%nat; [done|].
  assert ((0 - Z.of_nat (length (t :: ts)) - batch_size - 1) / - batch_size
          < 1); [|lia].
  apply Z.div_lt_upper_bound; simpl length; lia.
Qed.

(** X22.  [_embed_batch] sends the whole batch in one upstream request
    and, when the upstream answers, first computes the cost of the
    answer.  For a model that has a price and a [total_tokens] whose
    thousandth is out of the range of a float, that raises an
    [OverflowError], after the request was made.  For usage counters in
    the range of a 64-bit integer it does not, and then: for a non-empty
    batch there is one response per item of the answer (whatever the
    number of texts), in the answer's order, each tagged with the
    requested model and carrying the floor of an equal share of the
    usage counters, zero where the upstream reported no usage; for an
    empty batch an answer with at least one item ends in a division by
    zero; and an answer without items gives the empty list. *)
Theorem embed_batch_answered {Emb World : Type}
    (create : string → list string → World → result (@ApiResponse Emb) * World)
    (texts : list string) (mdl : string) (st : @St World)
    (resp : @ApiResponse Emb) (w' : World) :
  create mdl texts (fst st) = (Ok resp, w') →
  let n := Z.of_nat (length texts) in
  let u := default [] (api_usage resp) in
  let st' := (w', snd st ++ [ECreate mdl texts true]) in
  (dict_mem mdl token_pricing = true →
   1000 * float_overflow ≤ Z.abs (default 0 (dict_get "total_tokens" u)) →
   _embed_batch create texts mdl st
   = (Raise (OverflowError "integer division result too large for a float"),
      st')) ∧
  (usage_bounded u →
   (texts ≠ [] →
    ∃ rs, _embed_batch create texts mdl st = (Ok rs, st') ∧
          map embedding rs = data resp ∧
          Forall (fun x =>
                    model x = mdl ∧
                    usage x =
                    [("total_tokens",
                      default 0 (dict_get "total_tokens" u) / n);
                     ("prompt_tokens",
                      default 0 (dict_get "prompt_tokens" u) / n)]) rs) ∧
   (texts = [] → data resp ≠ [] →
    _embed_batch create texts mdl st = (Raise ZeroDivisionError, st')) ∧
   (data resp = [] → _embed_batch create texts mdl st = (Ok [], st'))).
Proof.
  intros Hc n u st'. unfold _embed_batch. rewrite Hc. fold u.
  split.
  { intros Hp Hbig.
    by rewrite (proj2 (calculate_cost_raises mdl u _)
                  (conj Hp (conj Hbig eq_refl))). }
  intros Hu. rewrite (usage_bounded_cost mdl u Hu). repeat split.
  - intros Hne.
    destruct (build_responses_spec mdl (data resp) u n)
      as (rs & Hrs & Hemb & Hall).
    { subst n. destruct texts; [done | simpl; lia]. }
    exists rs. fold n. by rewrite Hrs.
  - intros -> Hd. destruct (data resp) as [|d ds]; [done|].
    by rewrite build_responses_zero.
  - by intros ->.
Qed.

(** X23.  For a positive batch size, [embed_texts] raises only because
    of the last batch it sent: either the upstream request for it failed,
    and the exception is the upstream's, or the request succeeded with
    usage counters beyond the range of a 64-bit integer (the cost of the
    answer could not be computed).  Nothing was sent after that batch;
    the requests before it succeeded and were the first full batches of
    [texts], each followed by a delay; the failing batch was the next
    one, not empty; and the world is left as its request left it. *)
Theorem embed_texts_failure {Emb World : Type}
    (create : string → list string → World → result (@ApiResponse Emb) * World)
    (default_model : string) (texts : list string) (mdl : option string)
    (batch_size : Z) (st st' : @St World) (e : exn) :
  0 < batch_size →
  embed_texts create default_model texts mdl batch_size st = (Raise e, st') →
  ∃ (evs : list event) (k : nat) (w : World) (ok : bool),
    let b := take (Z.to_nat batch_size) (drop (k * Z.to_nat batch_size) texts) in
    let m := str_or mdl default_model in
    snd st' = snd st ++ evs ++ [ECreate m b ok] ∧
    match create m b w with
    | (Raise e', w') => ok = false ∧ e' = e ∧ w' = fst st'
    | (Ok resp, w') =>
        ok = true ∧ w' = fst st' ∧
        ¬ usage_bounded (default [] (api_usage resp))
    end ∧
    b ≠ [] ∧
    (∀ m' inp, ECreate m' inp false ∉ evs) ∧
    length (batch_calls evs) = k ∧
    concat (batch_calls evs) = take (k * Z.to_nat batch_size) texts ∧
    sleeps evs = k.
Proof.
  intros Hbs Hrun.
  destruct (decide (texts = [])) as [->|Hne]; [discriminate|].
  rewrite embed_texts_nonempty in Hrun by done.
  destruct (batches_spec texts batch_size Hbs) as (Hlen & Hcat & Hsz & Hdel).
  destruct (ceil_bounds (Z.of_nat (length texts)) batch_size Hbs ltac:(lia))
    as (Hc0 & Hub & Hlb).
  set (c := Z.to_nat ((Z.of_nat (length texts) + batch_size - 1) / batch_size))
    in *.
  set (f := fun k : nat => 0 + Z.of_nat k * batch_size) in *.
  apply embed_loop_raise in Hrun
      as (pre & i & rest & w & ok & Hidx & Hfail & Hlog).
  2:{ apply Forall_forall. intros i Hi.
      apply list_elem_of_lookup in Hi as [k Hk].
      destruct (Hsz k (py_slice texts i (i + batch_size))) as [Hpos _].
      - by rewrite lookup_map, Hk.
      - intros Heq. rewrite Heq in Hpos. simpl in Hpos. lia. }
  apply seq_prefix in Hidx as (Hk & Hpre & ->).
  set (k := length pre) in *.
  exists (expected_events texts (str_or mdl default_model) batch_size pre),
    k, w, ok.
  cbv zeta.
  rewrite <- (py_slice_chunk texts k batch_size Hbs). fold (f k).
  split; [done|]. split.
  { destruct (create (str_or mdl default_model)
                (py_slice texts (f k) (f k + batch_size)) w)
      as [[resp|e'] w']; [|done].
    destruct Hfail as (-> & -> & Hcost).
    split; [done|]. split; [done|]. intros Hu.
    by rewrite (usage_bounded_cost _ _ Hu) in Hcost. }
  split.
  { destruct (Hsz k (py_slice texts (f k) (f k + batch_size))) as [Hpos _].
    - rewrite lookup_map. subst f. by rewrite lookup_map, lookup_seq_lt.
    - intros Heq. rewrite Heq in Hpos. simpl in Hpos. lia. }
  split; [intros m' inp; apply expected_events_succeeded|].
  rewrite batch_calls_expected, sleeps_expected, Hpre.
  split; [by rewrite !length_map, length_seq|]. split.
  - rewrite map_map.
    rewrite (map_ext _ (fun j => take (Z.to_nat batch_size)
                                   (drop (j * Z.to_nat batch_size) texts))).
    + apply concat_chunks.
    + intros j. by apply py_slice_chunk.
  - subst f. cbv beta.
    rewrite (delays_count (Z.of_nat (length texts)) batch_size c k);
      [lia | done | subst c; nia | | lia].
    destruct Hlb as [Hz|Hlb]; [left; subst c; lia | right; subst c; nia].
Qed.

Lemma token_limit (model : string) :
  default 8191 (dict_get model token_limits) = 8191.
Proof.
  unfold token_limits. cbn [dict_get]. by repeat case_decide.
Qed.

(** X24.  [truncate_text] keeps the first 32764 characters of the text,
    whatever model is named: the result is a prefix of the text, is never
    longer than 32764 characters, equals the text when that is short
    enough, and truncating again, for any model, changes nothing more. *)
Theorem truncate_text_prefix (default_model text : string)
    (model model' : option string) :
  let r := truncate_text default_model text model in
  r = String.substring 0 (Z.to_nat 32764) text ∧
  Z.of_nat (String.length r) = Z.min (Z.of_nat (String.length text)) 32764 ∧
  truncate_text default_model r model' = r.
Proof.
  assert (Hcut : ∀ m t,
    truncate_text default_model t m = String.substring 0 (Z.to_nat 32764) t ∧
    Z.of_nat (String.length (truncate_text default_model t m))
    = Z.min (Z.of_nat (String.length t)) 32764).
  { intros m t. unfold truncate_text. rewrite token_limit.
    change (8191 * 4) with 32764.
    destruct (Z.leb_spec (Z.of_nat (String.length t)) 32764) as [Hle|Hgt].
    - split; [|lia]. clear -Hle.
      assert (H : (String.length t ≤ Z.to_nat 32764)%nat) by lia.
      revert H. generalize (Z.to_nat 32764). intros n.
      revert n. induction t as [|c t IH]; intros [|n] H; simpl in *;
        try done; try lia.
      f_equal. apply IH; lia.
    - unfold prefix_slice, Embeddings.clamp.
      destruct (Z.ltb_spec 32764 0); [lia|].
      rewrite Z.min_l by lia. split; [done|].
      rewrite length_substring0. lia. }
  intros r. subst r.
  destruct (Hcut model text) as [Heq Hlen]. split; [done|]. split; [done|].
  destruct (Hcut model' (truncate_text default_model text model))
    as [Heq' Hlen'].
  unfold truncate_text at 1. rewrite token_limit.
  change (8191 * 4) with 32764.
  destruct (Z.leb_spec
              (Z.of_nat (String.length (truncate_text default_model text model)))
              32764); [done | lia].
Qed.

Lemma embed_texts_nonpositive_batch_witness :
  embed_texts echo_upstream "text-embedding-ada-002" ["a"; "b"] None (-1)
    (0%nat, [])
  = (Ok [], (0%nat, [])).
Proof.
  exact (embed_texts_nonpositive_batch echo_upstream "text-embedding-ada-002"
           ["a"; "b"] None (-1) (0%nat, []) ltac:(done) ltac:(lia)).
Defined.

Lemma embed_batch_answered_witness :
  ∃ rs, _embed_batch echo_upstream ["a"; "b"] "text-embedding-ada-002"
          (0%nat, [])
        = (Ok rs, (1%nat, [ECreate "text-embedding-ada-002" ["a"; "b"] true]))
        ∧ map embedding rs = ["a"; "b"].
Proof.
  destruct (embed_batch_answered echo_upstream ["a"; "b"]
              "text-embedding-ada-002" (0%nat, [])
              {| data := ["a"; "b"]; api_usage := None |} 1%nat eq_refl)
    as (_ & H).
  destruct (H ltac:(by intros k v [=])) as [H1 _].
  destruct (H1 ltac:(done)) as (rs & Hrun & Hemb & _).
  by exists rs.
Defined.

Lemma embed_texts_failure_witness :
  0 < 2 ∧
  ∃ (evs : list event) (k : nat) (w : nat) (ok : bool),
    [ECreate "text-embedding-ada-002" ["a"; "b"] true; ESleep;
     ECreate "text-embedding-ada-002" ["c"; "d"] true; ESleep;
     ECreate "text-embedding-ada-002" ["e"; "f"] false]
    = evs ++ [ECreate "text-embedding-ada-002"
                (take 2 (drop (k * 2) ["a"; "b"; "c"; "d"; "e"; "f"; "g"]))
                ok] ∧
    length (batch_calls evs) = k ∧
    sleeps evs = k.
Proof.
  split; [lia|].
  destruct (embed_texts_failure failing_upstream "text-embedding-ada-002"
              ["a"; "b"; "c"; "d"; "e"; "f"; "g"] None 2 (0%nat, [])
              (3%nat, [ECreate "text-embedding-ada-002" ["a"; "b"] true;
                       ESleep;
                       ECreate "text-embedding-ada-002" ["c"; "d"] true;
                       ESleep;
                       ECreate "text-embedding-ada-002" ["e"; "f"] false])
              (ProviderError "rate limited") ltac:(lia) eq_refl)
    as (evs & k & w & ok & Hlog & _ & _ & _ & Hk & _ & Hs).
  exists evs, k, w, ok. by repeat split.
Defined.

(** An answer whose token count is beyond every float makes a priced
    model's batch fail after the request. *)
Example embed_batch_overflow :
  _embed_batch
    (fun _ inp (w : nat) =>
       (Ok {| data := inp; api_usage := Some [("total_tokens", 10 ^ 400)] |},
        S w))
    ["a"] "text-embedding-ada-002" (0%nat, [])
  = (Raise (OverflowError "integer division result too large for a float"),
     (1%nat, [ECreate "text-embedding-ada-002" ["a"] true])).
Proof. by vm_compute. Qed.

End EmbeddingsMore.

(** ** Merging YAML overrides *)

Module ConfigSpec.
Import Config PyDictMore.

Section Values.
Context {A : Type}.
Implicit Types (s y : list (string * @pyval A)) (k : string) (v : @pyval A).

Lemma merge_cons s k v y :
  _merge_yaml_config s ((k, v) :: y)
  = _merge_yaml_config (merge_entry (merge_value v) s k v) y.
Proof. reflexivity. Qed.

Lemma merge_entry_get s k v :
  dict_get k (merge_entry (merge_value v) s k v)
  = Some (merged_value s k v).
Proof.
  unfold merge_entry, merged_value.
  destruct v as [a|yd|md]; try apply dict_get_set_eq.
  destruct (dict_get k s) as [[a|sd|md]|] eqn:Hs;
    try apply dict_get_set_eq. done.
Qed.

Lemma merge_entry_get_ne s k k' v :
  k ≠ k' → dict_get k' (merge_entry (merge_value v) s k v) = dict_get k' s.
Proof.
  intros Hne. unfold merge_entry.
  destruct v as [a|yd|md]; try by apply dict_get_set_ne.
  destruct (dict_get k s) as [[a|sd|md]|];
    try by apply dict_get_set_ne. done.
Qed.

Lemma merge_entry_keys s k v :
  dict_keys (merge_entry (merge_value v) s k v)
  = if dict_mem k s then dict_keys s else dict_keys s ++ [k].
Proof.
  unfold merge_entry.
  destruct v as [a|yd|md]; try apply dict_keys_set.
  unfold dict_mem.
  destruct (dict_get k s) as [[a|sd|md]|] eqn:Hs;
    rewrite ?dict_keys_set; unfold dict_mem; by rewrite ?Hs.
Qed.

Lemma merged_value_ext s s' k v :
  dict_get k s' = dict_get k s → merged_value s' k v = merged_value s k v.
Proof. intros H. unfold merged_value. by rewrite H. Qed.

Lemma merge_get s y k :
  NoDup (dict_keys y) →
  dict_get k (_merge_yaml_config s y)
  = match dict_get k y with
    | Some v => Some (merged_value s k v)
    | None => dict_get k s
    end.
Proof.
  revert s. induction y as [|[k0 v0] y IH]; intros s Hnd; [done|].
  cbn [dict_keys map fst] in Hnd. apply NoDup_cons in Hnd as [Hk0 Hnd].
  rewrite merge_cons, IH by done. cbn [dict_get].
  destruct (decide (k = k0)) as [->|Hne].
  - rewrite (dict_get_None k0 y) by done. apply merge_entry_get.
  - rewrite merge_entry_get_ne by done.
    destruct (dict_get k y); [|done].
    f_equal. apply merged_value_ext. by apply merge_entry_get_ne.
Qed.

Lemma merge_fixed s y :
  (∀ k v, (k, v) ∈ y → merge_entry (merge_value v) s k v = s) →
  _merge_yaml_config s y = s.
Proof.
  induction y as [|[k v] y IH]; intros H; [done|].
  rewrite merge_cons, H by apply list_elem_of_here.
  apply IH. intros k' v' Hin. apply H. by apply list_elem_of_further.
Qed.

Lemma yaml_value_dict y :
  yaml_value (VDict y) = true →
  NoDup (dict_keys y) ∧ Forall (fun kv => yaml_value (snd kv) = true) y.
Proof.
  cbn [yaml_value]. intros H. apply andb_true_iff in H as [Hnd Hall].
  apply bool_decide_eq_true in Hnd. split; [done|]. clear Hnd.
  induction y as [|[k x] y IH]; [constructor|].
  apply andb_true_iff in Hall as [Hx Hall].
  constructor; [done | by apply IH].
Qed.

(** Merging a YAML dictionary a second time, and into itself, changes
    nothing. *)
Lemma merge_absorbed v :
  yaml_value v = true →
  match v with
  | VDict y =>
      (∀ s, _merge_yaml_config (_merge_yaml_config s y) y
            = _merge_yaml_config s y) ∧
      _merge_yaml_config y y = y
  | _ => True
  end.
Proof.
  induction v as [a|y IH|md IH] using pyval_nested_ind; [done| |done].
  intros Hy. destruct (yaml_value_dict y Hy) as [Hnd Hall].
  assert (Hsub : ∀ k yd, (k, VDict yd) ∈ y →
            (∀ s, _merge_yaml_config (_merge_yaml_config s yd) yd
                  = _merge_yaml_config s yd) ∧
            _merge_yaml_config yd yd = yd).
  { intros k yd Hin.
    rewrite Forall_forall in IH, Hall.
    apply (IH (k, VDict yd) Hin), (Hall (k, VDict yd) Hin). }
  split.
  - intros s. apply merge_fixed. intros k v Hin.
    pose proof (merge_get s y k Hnd) as Hget.
    rewrite (dict_get_elem k v y Hnd Hin) in Hget.
    unfold merge_entry. unfold merged_value in Hget.
    destruct v as [a|yd|md]; try by apply dict_set_id.
    destruct (Hsub k yd Hin) as [Htwice Hself].
    destruct (dict_get k s) as [[a|sd|md]|]; rewrite Hget;
      [done | | |]; apply dict_set_id; rewrite Hget; f_equal; f_equal.
    + symmetry. apply Htwice.
    + symmetry. apply Htwice.
    + symmetry. apply Hself.
  - apply merge_fixed. intros k v Hin.
    pose proof (dict_get_elem k v y Hnd Hin) as Hget.
    unfold merge_entry.
    destruct v as [a|yd|md]; try by apply dict_set_id.
    rewrite Hget. apply dict_set_id. rewrite Hget. f_equal. f_equal.
    symmetry. apply (Hsub k yd Hin).
Qed.

(** X25.  What [_merge_yaml_config] leaves under each key, for a YAML
    dictionary without repeated keys: a key the YAML does not mention
    keeps its setting; a YAML value that is not a dictionary replaces the
    setting; a YAML dictionary is merged, recursively, into a setting that
    is a dictionary or a model (which becomes a dictionary), is stored as
    it is under a new key, and is dropped when the setting is a plain
    value, which stays. *)
Theorem merge_yaml_lookup s y k :
  NoDup (dict_keys y) →
  dict_get k (_merge_yaml_config s y)
  = match dict_get k y with
    | None => dict_get k s
    | Some (VDict yd) =>
        match dict_get k s with
        | Some (VDict sd) => Some (VDict (_merge_yaml_config sd yd))
        | Some (VModel md) => Some (VDict (_merge_yaml_config md yd))
        | Some (VOther a) => Some (VOther a)
        | None => Some (VDict yd)
        end
    | Some v => Some v
    end.
Proof.
  intros Hnd. rewrite merge_get by done. unfold merged_value.
  destruct (dict_get k y) as [[a|yd|md]|]; try done.
  by destruct (dict_get k s) as [[a|sd|md]|].
Qed.

(** X26.  [_merge_yaml_config] never removes or reorders a setting: the
    keys of the result are the keys of the settings, in their order,
    followed by the keys that only the YAML has, in the YAML's order. *)
Theorem merge_yaml_keys s y :
  NoDup (dict_keys y) →
  dict_keys (_merge_yaml_config s y) = dict_keys s ++ new_keys s y.
Proof.
  revert s. induction y as [|[k0 v0] y IH]; intros s Hnd.
  - unfold new_keys. simpl. by rewrite app_nil_r.
  - cbn [dict_keys map fst] in Hnd. apply NoDup_cons in Hnd as [Hk0 Hnd].
    rewrite merge_cons, IH, merge_entry_keys by done.
    unfold new_keys. cbn [dict_keys map fst List.filter].
    fold (dict_keys y).
    assert (Hext : List.filter
                     (fun k => negb (dict_mem k
                                       (merge_entry (merge_value v0) s k0 v0)))
                     (dict_keys y)
                   = List.filter (fun k => negb (dict_mem k s)) (dict_keys y)).
    { apply List.filter_ext_in. intros k Hk. unfold dict_mem.
      rewrite merge_entry_get_ne; [done|].
      intros ->. apply Hk0. by apply list_elem_of_In. }
    rewrite Hext. destruct (dict_mem k0 s); simpl; [done|].
    by rewrite <- app_assoc.
Qed.

(** X27.  Applying the same YAML dictionary twice gives what applying it
    once gives, for every settings dictionary and every YAML dictionary
    that has no repeated keys at any depth. *)
Theorem merge_yaml_idempotent s y :
  yaml_value (VDict y) = true →
  _merge_yaml_config (_merge_yaml_config s y) y = _merge_yaml_config s y.
Proof.
  intros Hy. apply (merge_absorbed (VDict y) Hy).
Qed.
End Values.

Lemma merge_yaml_lookup_witness :
  dict_get "llm_provider" (_merge_yaml_config demo_settings_dict demo_yaml)
  = Some (VOther "openai").
Proof.
  exact (merge_yaml_lookup demo_settings_dict demo_yaml "llm_provider"
           ltac:(apply (bool_decide_unpack _); by vm_compute)).
Defined.

Lemma merge_yaml_keys_witness :
  dict_keys (_merge_yaml_config demo_settings_dict demo_yaml)
  = ["app_name"; "api"; "openai"; "llm_provider"; "redis"].
Proof.
  exact (merge_yaml_keys demo_settings_dict demo_yaml
           ltac:(apply (bool_decide_unpack _); by vm_compute)).
Defined.

Lemma merge_yaml_idempotent_witness :
  _merge_yaml_config (_merge_yaml_config demo_settings_dict demo_yaml)
    demo_yaml
  = _merge_yaml_config demo_settings_dict demo_yaml.
Proof.
  exact (merge_yaml_idempotent demo_settings_dict demo_yaml eq_refl).
Defined.

Example merge_yaml_demo :
  _merge_yaml_config demo_settings_dict demo_yaml
  = [("app_name", VOther "RAG Chatbot");
     ("api", VDict [("host", VOther "0.0.0.0"); ("port", VOther "9000");
                    ("workers", VOther "4")]);
     ("openai", VDict [("model", VOther "gpt-4o")]);
     ("llm_provider", VOther "openai");
     ("redis", VDict [("ttl", VOther "60")])].
Proof. reflexivity. Qed.

End ConfigSpec.
